(** * Bilinguo: the vocabulary store, its normalizer and tokenizer

    A shallow embedding of [bilinguo.py]: the string helpers
    ([normalize_word], [tokenize_text_to_unique_words]), the SQLite-backed
    word table with the [db_*] operations, the translation gateway and the
    flashcard export, followed by the properties of the specification.

    Python strings are sequences of Unicode code points, so a string is a
    [list N].  The table [words] is a list of rows in rowid order together
    with the AUTOINCREMENT counter. *)

From Stdlib Require Import ZArith NArith Strings.String Strings.Ascii Lia.
From stdpp Require Import base decidable list lexico gmap sorting.

Abbreviation pystr := (list N).

(** An ASCII literal as a Python string. *)
Definition py (s : String.string) : pystr :=
  map N_of_ascii (list_ascii_of_string s).
Arguments py s%_string.

(** ** Built-in string operations *)

(** [str.isspace] on one character: the code points CPython lists as
    whitespace (bidirectional type WS, B or S, or category Zs). *)
Definition isspace (c : N) : bool :=
  ((9 <=? c) && (c <=? 13) || (28 <=? c) && (c <=? 32) ||
   (c =? 133) || (c =? 160) || (c =? 5760) ||
   (8192 <=? c) && (c <=? 8202) || (c =? 8232) || (c =? 8233) ||
   (c =? 8239) || (c =? 8287) || (c =? 12288))%N.

Fixpoint dropwhile {A} (p : A → bool) (l : list A) : list A :=
  match l with
  | [] => []
  | x :: l' => if p x then dropwhile p l' else l
  end.

(** Removal of a leading and of a trailing run of characters. *)
Definition lstrip_by (p : N → bool) (s : pystr) : pystr := dropwhile p s.
Definition rstrip_by (p : N → bool) (s : pystr) : pystr :=
  reverse (dropwhile p (reverse s)).
Definition strip_by (p : N → bool) (s : pystr) : pystr :=
  rstrip_by p (lstrip_by p s).

(** [s.strip()] *)
Definition strip (s : pystr) : pystr := strip_by isspace s.

(** A string is trimmed for [p] when it is empty or neither its first nor
    its last character satisfies [p]. *)
Definition trimmed (p : N → bool) (s : pystr) : Prop :=
  s = [] ∨ (∃ a, head s = Some a ∧ p a = false) ∧
           (∃ b, last s = Some b ∧ p b = false).

(** [s.replace(old, new)] for one-character [old] and [new]. *)
Definition replace (old new : N) (s : pystr) : pystr :=
  map (λ c, if (c =? old)%N then new else c) s.

Fixpoint starts_with (pre s : pystr) : bool :=
  match pre, s with
  | [], _ => true
  | _ :: _, [] => false
  | a :: pre', b :: s' => (a =? b)%N && starts_with pre' s'
  end.

(** [s.split(sep)] for a non-empty [sep]: the text is scanned from the
    left, an occurrence of [sep] closes the current piece and its
    remaining characters are skipped. *)
Fixpoint split_go (sep : pystr) (skip : nat) (cur s : pystr) : list pystr :=
  match s with
  | [] => [cur]
  | c :: s' =>
      match skip with
      | S k => split_go sep k cur s'
      | O =>
          if starts_with sep s
          then cur :: split_go sep (length sep - 1) [] s'
          else split_go sep 0 (cur ++ [c]) s'
      end
  end.
Definition split (sep s : pystr) : list pystr := split_go sep 0 [] s.

(** [sep.join(l)] *)
Fixpoint join (sep : pystr) (l : list pystr) : pystr :=
  match l with
  | [] => []
  | [x] => x
  | x :: l' => x ++ sep ++ join sep l'
  end.

(** Truthiness of a string: [if p] *)
Definition truthy (s : pystr) : bool :=
  match s with [] => false | _ :: _ => true end.

(** Comparison of strings, code point by code point, as [<=] on [str]. *)
Fixpoint str_leb (a b : pystr) : bool :=
  match a, b with
  | [], _ => true
  | _ :: _, [] => false
  | x :: a', y :: b' => (x <? y)%N || (x =? y)%N && str_leb a' b'
  end.
Definition str_le (a b : pystr) : Prop := str_leb a b = true.
Definition str_lt (a b : pystr) : Prop := str_le a b ∧ a ≠ b.

Global Instance str_le_dec a b : Decision (str_le a b).
Proof. unfold str_le. apply _. Defined.

(** [sorted(xs)] on strings. *)
Definition sorted (xs : list pystr) : list pystr := merge_sort str_le xs.

(** ASCII classes. *)
Definition is_ascii (c : N) : Prop := (c < 128)%N.
Definition ascii_isupper (c : N) : bool := ((65 <=? c) && (c <=? 90))%N.
Definition ascii_islower (c : N) : bool := ((97 <=? c) && (c <=? 122))%N.
Definition ascii_isdigit (c : N) : bool := ((48 <=? c) && (c <=? 57))%N.
Definition ascii_isalpha (c : N) : bool := ascii_isupper c || ascii_islower c.
Definition ascii_isalnum (c : N) : bool := ascii_isalpha c || ascii_isdigit c.
Definition ascii_lower (c : N) : N := if ascii_isupper c then (c + 32)%N else c.

(** [[^\w']] on Basic Latin: anything but a letter, a digit, the underscore
    and the apostrophe. *)
Definition ascii_junk (c : N) : bool :=
  negb (ascii_isalnum c || (c =? 95)%N) && negb (c =? 39)%N.

(** [re.findall(r"[A-Za-z]+", text)]: the maximal runs of ASCII letters,
    from left to right. *)
Definition flush (cur : pystr) : list pystr :=
  match cur with [] => [] | _ :: _ => [cur] end.
Fixpoint findall_go (cur s : pystr) : list pystr :=
  match s with
  | [] => flush cur
  | c :: s' =>
      if ascii_isalpha c then findall_go (cur ++ [c]) s'
      else flush cur ++ findall_go [] s'
  end.
Definition re_findall_alpha (text : pystr) : list pystr := findall_go [] text.

(** A text cut into its maximal runs of ASCII letters: a gap without
    letters, then a non-empty run of letters that the end of the text or a
    character that is no letter follows, and so on. *)
Inductive alpha_runs : pystr → list pystr → Prop :=
  | runs_gap g :
      Forall (λ c, ascii_isalpha c = false) g → alpha_runs g []
  | runs_run g r rest rs :
      Forall (λ c, ascii_isalpha c = false) g →
      r ≠ [] →
      Forall (λ c, ascii_isalpha c = true) r →
      match rest with [] => True | c :: _ => ascii_isalpha c = false end →
      alpha_runs rest rs →
      alpha_runs (g ++ r ++ rest) (r :: rs).

(** ** Normalizer and tokenizer *)

Section normalizer.
(** Python's Unicode database enters through two built-ins: the
    alphanumeric test behind the regex class [\w] and [str.lower]. *)
Variable isalnum : N → bool.
Variable lower : pystr → pystr.

(** [\w] with [re.UNICODE] *)
Definition is_word (c : N) : bool := isalnum c || (c =? 95)%N.

(** [[^\w']] *)
Definition edge_junk (c : N) : bool := negb (is_word c) && negb (c =? 39)%N.

(** [re.sub(r'^[^\w\']+|[^\w\']+$', '', w)]: the leading and the trailing
    run of characters that are neither word characters nor apostrophes
    are deleted. *)
Definition re_sub_edges (w : pystr) : pystr := strip_by edge_junk w.

Definition normalize_word (w : pystr) : pystr :=
  let w := strip w in
  let w := replace 8221 34 (replace 8220 34 (replace 8217 39 w)) in
  let w := re_sub_edges w in
  lower w.

Definition tokenize_step (min_len : Z) (out : gset pystr) (t : pystr)
    : gset pystr :=
  let n := normalize_word t in
  if decide (min_len ≤ Z.of_nat (length n))%Z then {[ n ]} ∪ out else out.

Definition tokenize_text_to_unique_words (text : pystr) (min_len : Z)
    : list pystr :=
  let tokens := re_findall_alpha text in
  let out := foldl (tokenize_step min_len) ∅ tokens in
  sorted (elements out).

(** The tokenizer as the specification words it: the distinct normalized
    runs of sufficient length, in lexicographic order. *)
Definition tokenize_spec (text : pystr) (min_len : Z) : list pystr :=
  sorted (remove_dups
    (filter (λ n, (min_len ≤ Z.of_nat (length n))%Z)
       (map normalize_word (re_findall_alpha text)))).
End normalizer.

(** What is known of the two built-ins on Basic Latin: [\w] accepts the
    letters and digits, and [lower] maps each capital to its small
    letter. *)
Record basic_latin (isalnum : N → bool) (lower : pystr → pystr) : Prop := {
  isalnum_ascii : ∀ c, is_ascii c → isalnum c = ascii_isalnum c;
  lower_ascii : ∀ s, Forall is_ascii s → lower s = map ascii_lower s
}.

(** The three typographic quotes that the normalizer folds. *)
Definition typographic_quote (c : N) : Prop :=
  c = 8217%N ∨ c = 8220%N ∨ c = 8221%N.

(** An alphabet [A] with plain case: [lower] maps a string over [A]
    character by character, by [lc], into [A]; [lc] is idempotent, leaves
    a word character or apostrophe one that is no whitespace, and makes no
    typographic quote; apostrophe and quotation mark belong to [A]. *)
Record plain_case (isalnum : N → bool) (lower : pystr → pystr)
    (A : N → Prop) (lc : N → N) : Prop := {
  pc_lower : ∀ s, Forall A s → lower s = map lc s;
  pc_closed : ∀ c, A c → A (lc c);
  pc_idemp : ∀ c, A c → lc (lc c) = lc c;
  pc_kind : ∀ c, A c → edge_junk isalnum c = false →
            edge_junk isalnum (lc c) = false ∧ isspace (lc c) = false;
  pc_quote : ∀ c, A c → ¬ typographic_quote c → ¬ typographic_quote (lc c);
  pc_marks : A 39%N ∧ A 34%N
}.

(** The rows of the Unicode database that the examples below evaluate:
    Basic Latin, U+0130 LATIN CAPITAL LETTER I WITH DOT ABOVE (a letter,
    whose lower case is the two code points U+0069 U+0307) and U+0307
    COMBINING DOT ABOVE (a mark: not alphanumeric, no case).  Only strings
    over these code points are evaluated on it. *)
Definition ucd_isalnum (c : N) : bool := ascii_isalnum c || (c =? 304)%N.
Definition ucd_lower_char (c : N) : pystr :=
  if (c =? 304)%N then [105; 775]%N else [ascii_lower c].
Definition ucd_lower (s : pystr) : pystr := s ≫= ucd_lower_char.

(** ** The table [words]

    [CREATE TABLE words (id INTEGER PRIMARY KEY AUTOINCREMENT,
    word TEXT UNIQUE, translations TEXT DEFAULT '', added_at TEXT,
    anki_created INTEGER DEFAULT 0)] *)

Record Row := {
  id : Z;
  word : pystr;
  translations : pystr;
  added_at : pystr;
  anki_created : Z
}.

(** The rows in rowid order and the largest rowid handed out so far
    (the table's entry in [sqlite_sequence]). *)
Record Store := { rows : list Row; seq : Z }.

Definition empty_store : Store := {| rows := []; seq := 0 |}.

Definition set_translations (t : pystr) (r : Row) : Row :=
  {| id := id r; word := word r; translations := t;
     added_at := added_at r; anki_created := anki_created r |}.
Definition set_anki_created (a : Z) (r : Row) : Row :=
  {| id := id r; word := word r; translations := translations r;
     added_at := added_at r; anki_created := a |}.

(** [SELECT ... WHERE word = ?] followed by [fetchone()] *)
Definition fetchone_by_word (w : pystr) (db : Store) : option Row :=
  head (filter (λ r, word r = w) (rows db)).

(** [SELECT ... WHERE id = ?] followed by [fetchone()] *)
Definition fetchone_by_id (rowid : Z) (db : Store) : option Row :=
  head (filter (λ r, id r = rowid) (rows db)).

(** [UPDATE words SET ... WHERE ...] *)
Definition update_where (P : Row → Prop) `{∀ r, Decision (P r)}
    (f : Row → Row) (db : Store) : Store :=
  {| rows := (λ r, if decide (P r) then f r else r) <$> rows db;
     seq := seq db |}.

Inductive sql_result :=
  | Done (db : Store)
  | IntegrityError.

(** The rowid AUTOINCREMENT picks: one more than the largest rowid that
    ever existed in the table. *)
Definition next_rowid (db : Store) : Z :=
  (foldr Z.max (seq db) (id <$> rows db) + 1)%Z.

(** [INSERT INTO words (word, translations, added_at) VALUES (?, ?, ?)]:
    a second row with the same word violates the UNIQUE constraint. *)
Definition insert_word (w tr ts : pystr) (db : Store) : sql_result :=
  if decide (w ∈ word <$> rows db) then IntegrityError
  else
    let i := next_rowid db in
    Done {| rows := rows db ++
                    [ {| id := i; word := w; translations := tr;
                         added_at := ts; anki_created := 0 |} ];
            seq := i |}.

Definition sep3 : pystr := py " | ".

(** [[p for p in existing.split(" | ") if p]]: the translation list kept
    in the column [translations]. *)
Definition translation_parts (existing : pystr) : list pystr :=
  filter (λ p, p ≠ []) (split sep3 existing).

(** [timestamp] is the value of [datetime.now()], formatted. *)
Definition db_add_or_update_word (timestamp : pystr) (w translation : pystr)
    (db : Store) : Store :=
  if truthy w then
    let wk := strip w in
    match fetchone_by_word wk db with
    | Some row =>
        let existing := translations row in
        let parts := translation_parts existing in
        if truthy translation && bool_decide (translation ∉ parts) then
          let parts := parts ++ [translation] in
          let new_trans := join sep3 parts in
          update_where (λ r, word r = wk)
            (λ r, set_anki_created 0 (set_translations new_trans r)) db
        else db
    | None =>
        match insert_word wk translation timestamp db with
        | Done db' => db'
        | IntegrityError => db
        end
    end
  else db.

(** [DELETE FROM words WHERE id IN (...)]; the caller passes the
    identifiers as decimal strings, which SQLite compares with the integer
    column as integers. *)
Definition db_delete_words (ids : list Z) (db : Store) : Store :=
  match ids with
  | [] => db
  | _ :: _ => {| rows := filter (λ r, id r ∉ ids) (rows db); seq := seq db |}
  end.

Definition db_set_anki_created_for_word (w : pystr) (db : Store) : Store :=
  update_where (λ r, word r = w) (set_anki_created 1) db.

Definition db_reset_anki_flags (db : Store) : Store :=
  update_where (λ _, True) (set_anki_created 0) db.

(** [[p.strip() for p in translations_text.split("|") if p.strip()]] *)
Definition new_translation_parts (translations_text : pystr) : list pystr :=
  filter (λ p, p ≠ []) (map strip (split (py "|") translations_text)).

(** The loop over [new_parts]: the list [parts] grows by the pieces it
    does not hold yet, and [changed] records whether one was appended. *)
Definition merge_step (st : list pystr * bool) (np : pystr)
    : list pystr * bool :=
  if decide (np ∈ st.1) then st else (st.1 ++ [np], true).
Definition merge_parts (parts new_parts : list pystr) : list pystr * bool :=
  foldl merge_step (parts, false) new_parts.

Definition db_update_translations_for_id (rowid : Z)
    (translations_text : pystr) (db : Store) : Store :=
  match fetchone_by_id rowid db with
  | None => db
  | Some r =>
      let existing := translations r in
      let parts := translation_parts existing in
      let new_parts := new_translation_parts translations_text in
      let '(parts, changed) := merge_parts parts new_parts in
      let new_trans := join sep3 parts in
      if decide (new_trans ≠ existing) then
        update_where (λ r, id r = rowid)
          (λ r, set_anki_created 0 (set_translations new_trans r)) db
      else db
  end.

(** The store operations of the specification. *)
Inductive op :=
  | Upsert (timestamp w translation : pystr)
  | MergeTranslations (rowid : Z) (translations_text : pystr)
  | MarkExported (w : pystr)
  | ResetAllExportFlags
  | Delete (ids : list Z).

Definition run_op (db : Store) (o : op) : Store :=
  match o with
  | Upsert ts w tr => db_add_or_update_word ts w tr db
  | MergeTranslations rowid text => db_update_translations_for_id rowid text db
  | MarkExported w => db_set_anki_created_for_word w db
  | ResetAllExportFlags => db_reset_anki_flags db
  | Delete ids => db_delete_words ids db
  end.

Definition run_ops (db : Store) (os : list op) : Store := foldl run_op db os.

(** What no operation but a deletion may touch: the identifier, the key
    and the time of creation of a row. *)
Definition frame (r : Row) : Z * pystr * pystr := (id r, word r, added_at r).

Definition is_delete (o : op) : bool :=
  match o with Delete _ => true | _ => false end.

(** ** Translation *)

(** What [requests.get] and [r.json()] yield: an exception, or a status
    code with a body that is not JSON, lacks
    [responseData.translatedText], or carries it. *)
Inductive json_body :=
  | NotJson
  | NoTranslatedText
  | TranslatedText (tr : pystr).

Inductive http_outcome :=
  | RequestFailed
  | Response (status_code : Z) (body : json_body).

Definition translate_online_mymemory (w : pystr) (reply : http_outcome)
    : option pystr :=
  match reply with
  | RequestFailed => None
  | Response status_code body =>
      if (status_code =? 200)%Z then
        match body with
        | NotJson => None
        | NoTranslatedText => None
        | TranslatedText tr =>
            if truthy tr && bool_decide (tr ≠ w) then Some tr else None
        end
      else None
  end.

(** The signal [finished(word, translation, success)]. *)
Record finished := {
  fin_word : pystr;
  fin_translation : pystr;
  fin_success : bool
}.

(** [TranslationManager.translate] *)
Definition translate (timestamp w : pystr) (reply : http_outcome)
    (db : Store) : Store * finished :=
  match translate_online_mymemory w reply with
  | Some tr =>
      if truthy tr then
        (db_add_or_update_word timestamp w tr db,
         {| fin_word := w; fin_translation := tr; fin_success := true |})
      else
        (db, {| fin_word := w; fin_translation := []; fin_success := false |})
  | None =>
      (db, {| fin_word := w; fin_translation := []; fin_success := false |})
  end.

(** ** Flashcard export *)

(** The rows matched by [WHERE anki_created=0 LIMIT ?], in table order;
    a negative LIMIT puts no bound on the result. *)
Definition unexported (db : Store) : list Row :=
  filter (λ r, anki_created r = 0%Z) (rows db).
Definition select_rows (limit : Z) (db : Store) : list Row :=
  if (limit <? 0)%Z then unexported db
  else take (Z.to_nat limit) (unexported db).

(** [SELECT word, translations FROM words WHERE anki_created=0 LIMIT ?]
    followed by [fetchall()] *)
Definition select_for_export (limit : Z) (db : Store)
    : list (pystr * pystr) :=
  (λ r, (word r, translations r)) <$> select_rows limit db.

(** [VocabWindow.export_anki]: [path] is the answer of the file dialog,
    the result is the store afterwards and the lines written, when
    writing the file succeeds. *)
Definition export_anki (limit : Z) (path : pystr) (db : Store)
    : Store * list (pystr * pystr) :=
  let selected := select_for_export limit db in
  match selected with
  | [] => (db, [])
  | _ :: _ =>
      if truthy path then
        (foldl (λ d row, db_set_anki_created_for_word row.1 d) db selected,
         (py "Front", py "Back") :: selected)
      else (db, [])
  end.

(** ** What the specification asks of the column [translations] *)

(** No empty string in the translation list of any record, and no two
    entries that are equal after trimming. *)
Definition translations_clean (l : list pystr) : Prop :=
  ([] ∉ l) ∧ NoDup (strip <$> l).
Definition store_translations_clean (db : Store) : Prop :=
  Forall (λ r, translations_clean (translation_parts (translations r)))
    (rows db).

(** The stored text is the [" | "]-join of its own translation list. *)
Definition canonical (existing : pystr) : Prop :=
  join sep3 (translation_parts existing) = existing.

(** A piece as the merge path makes them: not empty, without a bar,
    trimmed; and a text that is the join of distinct such pieces. *)
Definition clean_piece (p : pystr) : Prop :=
  p ≠ [] ∧ (124%N ∉ p) ∧ strip p = p.
Definition clean_text (e : pystr) : Prop :=
  ∃ l, e = join sep3 l ∧ Forall clean_piece l ∧ NoDup l.
Definition clean_store (db : Store) : Prop :=
  Forall (λ r, clean_text (translations r)) (rows db).

(** An operation that hands [upsert] no translation or a clean piece. *)
Definition clean_op (o : op) : Prop :=
  match o with
  | Upsert _ _ tr => tr = [] ∨ clean_piece tr
  | _ => True
  end.

(** The number of bars in a string. *)
Definition bars (s : pystr) : nat := length (filter (λ c, c = 124%N) s).

(** ** Queries *)

(** [db_get_stats]: the number of rows and the number of rows with
    [anki_created = 1]. *)
Definition db_get_stats (db : Store) : nat * nat :=
  (length (rows db),
   length (filter (λ r, anki_created r = 1%Z) (rows db))).

(** The collation NOCASE folds the 26 capitals of ASCII and compares the
    folded texts. *)
Definition nocase (w : pystr) : pystr := map ascii_lower w.
Definition nocase_le (a b : Row) : Prop :=
  str_le (nocase (word a)) (nocase (word b)).

Global Instance nocase_le_dec a b : Decision (nocase_le a b).
Proof. unfold nocase_le. apply _. Defined.


(** ** Actions of the window *)

(** [VocabWindow.save_edits]: [selection] holds the words of the selected
    rows, [text] the content of the edit box. *)
Definition save_edits (selection : list pystr) (text : pystr) (db : Store)
    : Store :=
  match selection with
  | [] => db
  | w :: _ =>
      let translations_text := strip text in
      match fetchone_by_word w db with
      | Some r => db_update_translations_for_id (id r) translations_text db
      | None => db
      end
  end.

(** [VocabWindow.delete_selected]: [confirmed] is the answer to the
    question of the dialog. *)
Definition delete_selected (selection : list pystr) (confirmed : bool)
    (db : Store) : Store :=
  match selection with
  | [] => db
  | _ :: _ =>
      if confirmed then
        let ids := id <$> filter (λ r, word r ∈ selection) (rows db) in
        match ids with
        | [] => db
        | _ :: _ => db_delete_words ids db
        end
      else db
  end.

(** A value of a JSON object, as far as [import_json] tells them apart: a
    string, or anything else (which has no method [strip]). *)
Inductive json_value :=
  | JString (s : pystr)
  | JOther.

(** An element of the imported list: a dict with the key "word" and
    perhaps the key "translation", or anything else. *)
Inductive json_item :=
  | Entry (w : json_value) (translation : option json_value)
  | NoEntry.

Inductive json_data :=
  | JList (items : list json_item)
  | NotAList.

(** The loop of [VocabWindow.import_json]: [clock k] is the time of the
    [k]-th upsert, the result is the store and the count of imported
    entries, or [None] when an item raised. *)
Fixpoint import_items (clock : nat → pystr) (k : nat)
    (items : list json_item) (count : nat) (db : Store)
    : Store * option nat :=
  match items with
  | [] => (db, Some count)
  | NoEntry :: rest => import_items clock k rest count db
  | Entry wv trv :: rest =>
      match wv with
      | JOther => (db, None)
      | JString w0 =>
          let w := strip w0 in
          match trv with
          | Some JOther => (db, None)
          | Some (JString tr0) =>
              let tr := strip tr0 in
              if truthy w
              then import_items clock (S k) rest (S count)
                     (db_add_or_update_word (clock k) w tr db)
              else import_items clock k rest count db
          | None =>
              let tr := strip [] in
              if truthy w
              then import_items clock (S k) rest (S count)
                     (db_add_or_update_word (clock k) w tr db)
              else import_items clock k rest count db
          end
      end
  end.

(** [VocabWindow.import_json], once the file is read and parsed. *)
Definition import_json (clock : nat → pystr) (data : json_data)
    (db : Store) : Store * option nat :=
  match data with
  | NotAList => (db, None)
  | JList items => import_items clock 0 items 0 db
  end.

(** An item that the loop reads without an exception: no dict with the
    key "word", or a dict whose "word" and "translation", where present,
    are strings. *)
Definition well_typed (it : json_item) : bool :=
  match it with
  | NoEntry => true
  | Entry (JString _) None => true
  | Entry (JString _) (Some (JString _)) => true
  | Entry _ _ => false
  end.

(** The word under which an item is stored: the trimmed "word", unless it
    is blank. *)
Definition entry_word (it : json_item) : option pystr :=
  match it with
  | Entry (JString w0) _ => if truthy (strip w0) then Some (strip w0) else None
  | _ => None
  end.

Section import_text.
Variable isalnum : N → bool.
Variable lower : pystr → pystr.

(** The loop [for w in words: db_add_or_update_word(w, "")]. *)
Fixpoint add_words (clock : nat → pystr) (k : nat) (words : list pystr)
    (db : Store) : Store :=
  match words with
  | [] => db
  | w :: rest =>
      add_words clock (S k) rest (db_add_or_update_word (clock k) w [] db)
  end.

(** [VocabWindow.import_text], once the file is read: the store and the
    number of words the message reports. *)
Definition import_text (clock : nat → pystr) (txt : pystr) (db : Store)
    : Store * nat :=
  let words := tokenize_text_to_unique_words isalnum lower txt 2 in
  (add_words clock 0 words db, length words).
End import_text.

(** ** The shape of a store *)

(** What the declaration of the table grants: rows in increasing rowid
    order, none above the counter, words unique; and flags 0 or 1, the
    only values written. *)
Record well_formed (db : Store) : Prop := {
  wf_words : NoDup (word <$> rows db);
  wf_order : StronglySorted Z.lt (id <$> rows db);
  wf_seq : Forall (λ r, (id r ≤ seq db)%Z) (rows db);
  wf_flags : Forall (λ r, anki_created r = 0%Z ∨ anki_created r = 1%Z)
               (rows db)
}.

(** A flag that is 0 or 1. *)
Definition flag01 (r : Row) : Prop :=
  anki_created r = 0%Z ∨ anki_created r = 1%Z.

(** ** Sample data *)

Definition ts0 : pystr := py "2024-03-01 09:00:00".
Definition ts1 : pystr := py "2024-03-02 18:30:00".

(** One record, ["cat"] with the translation ["gato"]. *)
Definition cat_store : Store :=
  db_add_or_update_word ts0 (py "cat") (py "gato") empty_store.

(** Eight records, of which ["ant"], ["bee"] and ["cow"] are exported. *)
Definition farm_store : Store :=
  run_ops empty_store
    [ Upsert ts0 (py "ant") (py "hormiga"); Upsert ts0 (py "bee") (py "abeja");
      Upsert ts0 (py "cow") (py "vaca"); Upsert ts0 (py "dog") (py "perro");
      Upsert ts0 (py "eel") (py "anguila"); Upsert ts0 (py "fox") (py "zorro");
      Upsert ts0 (py "gnu") []; Upsert ts0 (py "hen") (py "gallina");
      MarkExported (py "ant"); MarkExported (py "bee");
      MarkExported (py "cow") ].

(** * Properties *)

(** ** Strings *)

Section dropwhile.
Context {A : Type} (p : A → bool).

Lemma dropwhile_clean (l : list A) :
  Forall (λ x, p x = false) l → dropwhile p l = l.
Proof. destruct 1 as [|x l Hx _]; simpl; [done | by rewrite Hx]. Qed.

Lemma dropwhile_head (l : list A) x :
  head (dropwhile p l) = Some x → p x = false.
Proof.
  induction l as [|y l IH]; simpl; [done |].
  destruct (p y) eqn:Hy; [done |]. simpl. by intros [= <-].
Qed.

Lemma dropwhile_head_clean (l : list A) x :
  head l = Some x → p x = false → dropwhile p l = l.
Proof. destruct l as [|y l]; simpl; [done |]. by intros [= ->] ->. Qed.

Lemma dropwhile_suffix (l : list A) : dropwhile p l `suffix_of` l.
Proof.
  induction l as [|y l IH]; simpl; [done |].
  destruct (p y); [by apply suffix_cons_r | done].
Qed.

Lemma dropwhile_Forall (P : A → Prop) (l : list A) :
  Forall P l → Forall P (dropwhile p l).
Proof.
  intros H. destruct (dropwhile_suffix l) as [k Hk].
  rewrite Hk in H. by apply Forall_app in H as [_ ?].
Qed.

Lemma dropwhile_last (l : list A) x :
  last l = Some x → p x = false → last (dropwhile p l) = Some x.
Proof.
  induction l as [|y l IH]; simpl; [done |]. intros Hl Hx.
  destruct (p y) eqn:Hy; [|done].
  destruct l as [|z l]; [simpl in Hl; congruence |].
  apply IH; [|done]. by rewrite last_cons_cons in Hl.
Qed.
End dropwhile.

Lemma head_reverse {A} (l : list A) : head (reverse l) = last l.
Proof.
  induction l as [|x l IH] using rev_ind; [done |].
  by rewrite reverse_snoc, last_snoc.
Qed.

Lemma last_reverse {A} (l : list A) : last (reverse l) = head l.
Proof. by rewrite <-head_reverse, reverse_involutive. Qed.

Lemma strip_by_trimmed p s : trimmed p s → strip_by p s = s.
Proof.
  intros [-> | [(a & Ha & Hpa) (b & Hb & Hpb)]]; [done |].
  unfold strip_by, rstrip_by, lstrip_by.
  rewrite (dropwhile_head_clean p s a) by done.
  rewrite (dropwhile_head_clean p (reverse s) b), reverse_involutive;
    [done | by rewrite head_reverse | done].
Qed.

Lemma strip_by_is_trimmed p s : trimmed p (strip_by p s).
Proof.
  unfold strip_by, rstrip_by, lstrip_by.
  set (t := dropwhile p s).
  destruct (dropwhile p (reverse t)) as [|b u] eqn:Hu; [by left |].
  right. split.
  - destruct t as [|a t'] eqn:Ht; [done |].
    exists a. assert (p a = false) as Hpa.
    { apply (dropwhile_head p s). subst t. by rewrite Ht. }
    split; [|done]. rewrite <-last_reverse, reverse_involutive, <-Hu.
    apply dropwhile_last; [|done]. by rewrite last_reverse.
  - exists b. split; [by rewrite <-head_reverse, reverse_involutive |].
    apply (dropwhile_head p (reverse t)). by rewrite Hu.
Qed.

Lemma strip_by_Forall (P : N → Prop) p s :
  Forall P s → Forall P (strip_by p s).
Proof.
  intros H. unfold strip_by, rstrip_by, lstrip_by.
  apply Forall_reverse, dropwhile_Forall, Forall_reverse.
  by apply dropwhile_Forall.
Qed.

Lemma strip_by_clean p s : Forall (λ c, p c = false) s → strip_by p s = s.
Proof.
  intros H. unfold strip_by, rstrip_by, lstrip_by.
  rewrite (dropwhile_clean p s) by done.
  rewrite dropwhile_clean, reverse_involutive; [done |].
  by apply Forall_reverse.
Qed.

Lemma trimmed_map (P : N → Prop) p q (f : N → N) s :
  (∀ c, P c → p c = false → q (f c) = false) →
  Forall P s → trimmed p s → trimmed q (map f s).
Proof.
  intros Hf HP [-> | [(a & Ha & Hpa) (b & Hb & Hpb)]]; [by left |].
  right. rewrite Forall_forall in HP. split.
  - exists (f a). apply head_Some in Ha as [s' ->]. split; [done |].
    apply Hf; [apply HP; by left | done].
  - exists (f b). apply last_Some in Hb as [s' ->]. split.
    + rewrite map_app. simpl. by rewrite last_snoc.
    + apply Hf; [apply HP, elem_of_app; right; by left | done].
Qed.

Lemma replace_absent old new s :
  Forall (λ c, c ≠ old) s → replace old new s = s.
Proof.
  unfold replace. induction 1 as [|c s Hc _ IH]; simpl; [done |].
  apply N.eqb_neq in Hc. by rewrite Hc, IH.
Qed.

(** A property of every code point below 128, decided by enumeration. *)
Lemma ascii_forall (P : N → bool) :
  forallb P (map N.of_nat (List.seq 0 128)) = true →
  ∀ c, is_ascii c → P c = true.
Proof.
  intros H c Hc. rewrite forallb_forall in H. apply H.
  apply in_map_iff. exists (N.to_nat c). split; [lia |].
  apply in_seq. unfold is_ascii in Hc. lia.
Qed.

(** ** The order on strings *)

Global Instance str_le_total : Total str_le.
Proof.
  intros a. unfold str_le.
  induction a as [|x a IH]; intros [|y b]; simpl; auto.
  destruct (IH b) as [H | H]; rewrite H;
    destruct (N.ltb_spec x y), (N.ltb_spec y x), (N.eqb_spec x y),
      (N.eqb_spec y x); simpl; auto; lia.
Qed.

Global Instance str_le_trans : Transitive str_le.
Proof.
  intros a. unfold str_le.
  induction a as [|x a IH]; intros [|y b] [|z c]; simpl; auto; try done.
  rewrite !orb_true_iff, !andb_true_iff, !N.ltb_lt, !N.eqb_eq.
  intros [? | [-> ?]] [? | [-> ?]]; eauto; left; lia.
Qed.

Global Instance str_le_antisym : AntiSymm (=) str_le.
Proof.
  intros a. unfold str_le.
  induction a as [|x a IH]; intros [|y b]; simpl; auto; try done.
  rewrite !orb_true_iff, !andb_true_iff, !N.ltb_lt, !N.eqb_eq.
  intros [? | [-> ?]] [? | [? ?]]; try lia. f_equal. by apply IH.
Qed.

(** [str_le] is the lexicographic order on sequences of code points. *)
Lemma str_le_lexico (a : pystr) : ∀ b, str_le a b ↔ lexico a b ∨ a = b.
Proof.
  unfold str_le. induction a as [|x a IH]; intros [|y b]; simpl.
  - split; [by right | done].
  - split; [by left | done].
  - split; [done |]. by intros [[] | ?].
  - rewrite orb_true_iff, andb_true_iff, N.ltb_lt, N.eqb_eq, IH.
    unfold lexico at 2, list_lexico. fold (@list_lexico N _).
    unfold lexico, prod_lexico; simpl. unfold lexico at 1, N_lexico.
    split.
    + intros [? | [-> [? | ->]]]; [by left; left | left; by right | by right].
    + intros [[? | [-> ?]] | [= -> ->]];
        [by left | right; split; [done | by left] |].
      right. split; [done | by right].
Qed.

Lemma str_lt_lexico (a b : pystr) : str_lt a b ↔ lexico a b.
Proof.
  unfold str_lt. rewrite str_le_lexico. split.
  - by intros [[? | ?] ?].
  - intros H. split; [by left |]. intros ->.
    by apply (irreflexivity lexico b).
Qed.

Lemma sorted_Sorted xs : Sorted str_le (sorted xs).
Proof. apply (Sorted_merge_sort str_le). Qed.

Lemma sorted_Permutation xs : sorted xs ≡ₚ xs.
Proof. apply (merge_sort_Permutation str_le). Qed.

Lemma elem_of_sorted xs x : x ∈ sorted xs ↔ x ∈ xs.
Proof. by rewrite sorted_Permutation. Qed.

(** Sorting depends on the elements only, not on the order in which a set
    hands them out. *)
Lemma sorted_Permutation_eq xs ys : xs ≡ₚ ys → sorted xs = sorted ys.
Proof.
  intros H. apply (Sorted_unique str_le); auto using sorted_Sorted.
  by rewrite !sorted_Permutation.
Qed.

Lemma sorted_NoDup_strict xs :
  NoDup xs → StronglySorted lexico (sorted xs).
Proof.
  intros Hnd.
  assert (NoDup (sorted xs)) as Hnd' by by rewrite sorted_Permutation.
  pose proof (Sorted_StronglySorted str_le _ (sorted_Sorted xs)) as Hs.
  induction Hs as [|x l Hl IH Hx]; [constructor |].
  apply NoDup_cons in Hnd' as [Hx' Hnd']. constructor; [by apply IH |].
  rewrite Forall_forall in Hx |- *. intros y Hy. apply str_lt_lexico.
  split; [by apply Hx |]. by intros ->.
Qed.

(** ** The runs [re.findall] returns *)

Lemma alpha_runs_cons c s rs :
  ascii_isalpha c = false → alpha_runs s rs → alpha_runs (c :: s) rs.
Proof.
  intros Hc [g Hg | g r rest rs' Hg Hr Hra Hrest Hrs].
  - apply runs_gap. by constructor.
  - apply (runs_run (c :: g)); auto.
Qed.

Lemma findall_go_runs s : ∀ cur,
  Forall (λ c, ascii_isalpha c = true) cur →
  alpha_runs (cur ++ s) (findall_go cur s).
Proof.
  induction s as [|c s IH]; intros cur Hcur; simpl.
  - destruct cur as [|a cur]; simpl.
    + by apply runs_gap.
    + apply (runs_run [] (a :: cur) [] []); auto. by apply runs_gap.
  - destruct (ascii_isalpha c) eqn:Hc.
    + rewrite (cons_middle c cur s), app_assoc. apply IH.
      apply Forall_app. split; [done |]. by repeat constructor.
    + assert (alpha_runs (c :: s) (findall_go [] s)) as Hrest.
      { apply alpha_runs_cons; [done |]. apply (IH []). constructor. }
      destruct cur as [|a cur]; simpl; [done |].
      by apply (runs_run [] (a :: cur) (c :: s)).
Qed.

Lemma re_findall_alpha_runs text : alpha_runs text (re_findall_alpha text).
Proof. apply (findall_go_runs text []). constructor. Qed.

Lemma alpha_runs_Forall s rs :
  alpha_runs s rs →
  Forall (λ r, r ≠ [] ∧ Forall (λ c, ascii_isalpha c = true) r) rs.
Proof. induction 1; constructor; auto. Qed.

Lemma re_findall_alpha_elem text r :
  r ∈ re_findall_alpha text →
  r ≠ [] ∧ Forall (λ c, ascii_isalpha c = true) r.
Proof.
  intros Hr. pose proof (alpha_runs_Forall _ _ (re_findall_alpha_runs text)) as H.
  rewrite Forall_forall in H. by apply H.
Qed.

(** ** Facts on Basic Latin *)

Lemma ascii_isalpha_ascii c : ascii_isalpha c = true → is_ascii c.
Proof.
  unfold ascii_isalpha, ascii_isupper, ascii_islower, is_ascii.
  rewrite orb_true_iff, !andb_true_iff, !N.leb_le. lia.
Qed.

Lemma ascii_islower_ascii c : ascii_islower c = true → is_ascii c.
Proof.
  unfold ascii_islower, is_ascii. rewrite andb_true_iff, !N.leb_le. lia.
Qed.

Lemma ascii_not_quote c :
  is_ascii c → c ≠ 8217%N ∧ c ≠ 8220%N ∧ c ≠ 8221%N.
Proof. unfold is_ascii. lia. Qed.

Lemma ascii_lower_ascii c : is_ascii c → is_ascii (ascii_lower c).
Proof.
  intros Hc.
  pose proof (ascii_forall (λ c, ascii_lower c <? 128)%N eq_refl c Hc) as H.
  by apply N.ltb_lt in H.
Qed.

Lemma ascii_lower_idemp c :
  is_ascii c → ascii_lower (ascii_lower c) = ascii_lower c.
Proof.
  intros Hc.
  pose proof (ascii_forall (λ c, ascii_lower (ascii_lower c) =? ascii_lower c)%N
                eq_refl c Hc) as H.
  by apply N.eqb_eq in H.
Qed.

Lemma ascii_lower_islower c :
  ascii_islower c = true → ascii_lower c = c.
Proof.
  intros Hl.
  pose proof (ascii_forall
    (λ c, implb (ascii_islower c) (ascii_lower c =? c)%N) eq_refl c
    (ascii_islower_ascii c Hl)) as H.
  cbv beta in H. rewrite Hl in H. by apply N.eqb_eq in H.
Qed.

Lemma ascii_lower_keeps_edge c :
  is_ascii c → ascii_junk c = false →
  isspace (ascii_lower c) = false ∧ ascii_junk (ascii_lower c) = false.
Proof.
  intros Hc Hj.
  pose proof (ascii_forall
    (λ c, implb (negb (ascii_junk c))
            (negb (isspace (ascii_lower c)) && negb (ascii_junk (ascii_lower c))))
    eq_refl c Hc) as H.
  cbv beta in H. rewrite Hj in H. simpl in H.
  apply andb_true_iff in H as [H1 H2].
  by destruct (isspace _), (ascii_junk (ascii_lower c)).
Qed.

Lemma ascii_isalpha_facts c :
  ascii_isalpha c = true →
  isspace c = false ∧ ascii_junk c = false ∧
  ascii_islower (ascii_lower c) = true.
Proof.
  intros Ha.
  pose proof (ascii_forall
    (λ c, implb (ascii_isalpha c)
            (negb (isspace c) && negb (ascii_junk c) &&
             ascii_islower (ascii_lower c)))
    eq_refl c (ascii_isalpha_ascii c Ha)) as H.
  cbv beta in H. rewrite Ha in H. simpl in H.
  apply andb_true_iff in H as [H H3]. apply andb_true_iff in H as [H1 H2].
  by destruct (isspace c), (ascii_junk c).
Qed.

Lemma elem_of_map {A B} (f : A → B) (l : list A) y :
  y ∈ map f l ↔ ∃ x, y = f x ∧ x ∈ l.
Proof.
  rewrite list_elem_of_In, in_map_iff. split.
  - intros (x & <- & Hx). exists x. by rewrite list_elem_of_In.
  - intros (x & -> & Hx). exists x. by rewrite <-list_elem_of_In.
Qed.

Lemma map_ext_Forall {A B} (f g : A → B) (l : list A) :
  Forall (λ x, f x = g x) l → map f l = map g l.
Proof. induction 1; simpl; congruence. Qed.

Lemma ucd_basic_latin : basic_latin ucd_isalnum ucd_lower.
Proof.
  split.
  - intros c Hc. unfold ucd_isalnum, is_ascii in *.
    destruct (N.eqb_spec c 304); [lia | apply orb_false_r].
  - induction 1 as [|c s Hc _ IH]; [done |].
    unfold ucd_lower in *.
    change ((c :: s) ≫= ucd_lower_char)
      with (ucd_lower_char c ++ (s ≫= ucd_lower_char)).
    rewrite IH. unfold ucd_lower_char, is_ascii in *.
    destruct (N.eqb_spec c 304); [lia | done].
Qed.

(** ** The tokenizer, for any Unicode tables *)

Section tokenizer.
Variable isalnum : N → bool.
Variable lower : pystr → pystr.

Let normalize := normalize_word isalnum lower.
Let tokenize := tokenize_text_to_unique_words isalnum lower.

Lemma tokenize_fold_elem min_len tokens : ∀ (out : gset pystr) t,
  t ∈ foldl (tokenize_step isalnum lower min_len) out tokens ↔
  t ∈ out ∨ ∃ r, r ∈ tokens ∧ t = normalize r ∧
                 (min_len ≤ Z.of_nat (length t))%Z.
Proof.
  induction tokens as [|r0 tokens IH]; intros out t; simpl.
  - split; [auto |]. intros [? | (r & Hr & _)]; [done |]. by inv Hr.
  - rewrite IH. unfold tokenize_step. fold normalize.
    split.
    + intros [Hin | (r & Hr & Ht & Hlen)].
      * case_decide; [|auto].
        apply elem_of_union in Hin as [->%elem_of_singleton | ?]; [|auto].
        right. exists r0. split; [left | done].
      * right. exists r. split; [by right | done].
    + intros [Hin | (r & Hr & Ht & Hlen)].
      * left. case_decide; [by apply elem_of_union_r | done].
      * apply elem_of_cons in Hr as [-> | Hr].
        -- left. rewrite <-Ht. rewrite decide_True by done.
           apply elem_of_union_l. by apply elem_of_singleton.
        -- right. by exists r.
Qed.

Lemma elem_of_tokenize text min_len t :
  t ∈ tokenize text min_len ↔
  ∃ r, r ∈ re_findall_alpha text ∧ t = normalize r ∧
       (min_len ≤ Z.of_nat (length t))%Z.
Proof.
  unfold tokenize, tokenize_text_to_unique_words.
  rewrite elem_of_sorted, elem_of_elements, tokenize_fold_elem.
  split; [|auto]. intros [H | H]; [|done]. by apply elem_of_empty in H.
Qed.

Lemma tokenize_strictly_sorted text min_len :
  StronglySorted lexico (tokenize text min_len).
Proof. apply sorted_NoDup_strict, NoDup_elements. Qed.

Lemma tokenize_eq_spec text min_len :
  tokenize text min_len = tokenize_spec isalnum lower text min_len.
Proof.
  unfold tokenize, tokenize_text_to_unique_words, tokenize_spec.
  apply sorted_Permutation_eq, NoDup_Permutation.
  - apply NoDup_elements.
  - apply NoDup_remove_dups.
  - intros t.
    rewrite elem_of_elements, tokenize_fold_elem, elem_of_remove_dups,
      list_elem_of_filter, elem_of_map.
    split.
    + intros [H | (r & Hr & -> & Hlen)]; [by apply elem_of_empty in H |].
      split; [done | by exists r].
    + intros [Hlen (r & -> & Hr)]. right. by exists r.
Qed.
End tokenizer.

(** ** The normalizer on Basic Latin *)

Section normalizer_basic_latin.
Variable isalnum : N → bool.
Variable lower : pystr → pystr.
Hypothesis Hbl : basic_latin isalnum lower.

Let normalize := normalize_word isalnum lower.

Lemma edge_junk_ascii c : is_ascii c → edge_junk isalnum c = ascii_junk c.
Proof.
  intros Hc. unfold edge_junk, is_word, ascii_junk.
  by rewrite (isalnum_ascii _ _ Hbl).
Qed.

(** On a string of Basic Latin the quotes to fold are absent and
    [lower] works character by character. *)
Lemma normalize_word_ascii s :
  Forall is_ascii s →
  normalize s = map ascii_lower (re_sub_edges isalnum (strip s)).
Proof.
  intros Hs. unfold normalize, normalize_word.
  assert (Forall is_ascii (strip s)) as Hs' by by apply strip_by_Forall.
  assert (∀ q, q = 8217%N ∨ q = 8220%N ∨ q = 8221%N →
               Forall (λ c, c ≠ q) (strip s)) as Hq.
  { intros q Hq. eapply Forall_impl; [exact Hs' |].
    intros c Hc. apply ascii_not_quote in Hc as (? & ? & ?).
    by destruct Hq as [-> | [-> | ->]]. }
  rewrite (replace_absent 8217), (replace_absent 8220),
    (replace_absent 8221) by auto.
  apply (lower_ascii _ _ Hbl). by apply strip_by_Forall.
Qed.

(** A run of letters is normalized by lower-casing it. *)
Lemma normalize_word_run r :
  Forall (λ c, ascii_isalpha c = true) r → normalize r = map ascii_lower r.
Proof.
  intros Hr.
  assert (Forall is_ascii r) as Ha
    by (eapply Forall_impl; [exact Hr | apply ascii_isalpha_ascii]).
  rewrite normalize_word_ascii by done. unfold strip, re_sub_edges.
  rewrite (strip_by_clean isspace).
  - rewrite strip_by_clean; [done |].
    eapply Forall_impl; [exact Hr |]. intros c Hc. simpl.
    rewrite edge_junk_ascii by by apply ascii_isalpha_ascii.
    by apply ascii_isalpha_facts.
  - eapply Forall_impl; [exact Hr |]. intros c Hc.
    by apply ascii_isalpha_facts.
Qed.

Lemma normalize_word_lowercase t :
  Forall (λ c, ascii_islower c = true) t → normalize t = t.
Proof.
  intros Ht. rewrite normalize_word_run.
  - rewrite (map_ext_Forall _ (λ c, c)); [apply map_id |].
    eapply Forall_impl; [exact Ht | apply ascii_lower_islower].
  - eapply Forall_impl; [exact Ht |]. intros c Hc.
    unfold ascii_isalpha. rewrite Hc. apply orb_true_r.
Qed.

Lemma map_normalize_runs text :
  map normalize (re_findall_alpha text) =
  map (map ascii_lower) (re_findall_alpha text).
Proof.
  apply map_ext_Forall, Forall_forall. intros r Hr.
  apply normalize_word_run. by apply re_findall_alpha_elem in Hr as [_ ?].
Qed.

Lemma tokenize_basic_latin text min_len :
  tokenize_text_to_unique_words isalnum lower text min_len =
  sorted (remove_dups
    (filter (λ n, (min_len ≤ Z.of_nat (length n))%Z)
       (map (map ascii_lower) (re_findall_alpha text)))).
Proof.
  rewrite tokenize_eq_spec. unfold tokenize_spec.
  fold normalize. by rewrite map_normalize_runs.
Qed.

(** Basic Latin is an alphabet with plain case. *)
Lemma basic_latin_plain_case : plain_case isalnum lower is_ascii ascii_lower.
Proof.
  split.
  - apply (lower_ascii _ _ Hbl).
  - apply ascii_lower_ascii.
  - apply ascii_lower_idemp.
  - intros c Hc Hj. rewrite edge_junk_ascii in Hj by done.
    rewrite edge_junk_ascii by by apply ascii_lower_ascii.
    destruct (ascii_lower_keeps_edge c Hc Hj). by split.
  - intros c Hc _ Hq. apply ascii_lower_ascii in Hc.
    unfold typographic_quote, is_ascii in *. lia.
  - unfold is_ascii. lia.
Qed.
End normalizer_basic_latin.

(** ** The normalizer on an alphabet with plain case *)

Lemma replace_Forall (P : N → Prop) old new s :
  P new → Forall P s → Forall P (replace old new s).
Proof.
  intros Hnew Hs. unfold replace. apply Forall_map.
  eapply Forall_impl; [exact Hs |]. intros c Hc. simpl.
  by destruct (c =? old)%N.
Qed.

Lemma fold_quotes_none s :
  Forall (λ c, ¬ typographic_quote c)
    (replace 8221 34 (replace 8220 34 (replace 8217 39 s))).
Proof.
  unfold replace. rewrite !map_map. apply Forall_map, Forall_forall.
  intros c _. simpl. unfold typographic_quote.
  destruct (N.eqb_spec c 8217) as [-> | ?]; simpl; [lia |].
  destruct (N.eqb_spec c 8220) as [-> | ?]; simpl; [lia |].
  destruct (N.eqb_spec c 8221) as [-> | ?]; simpl; lia.
Qed.

Lemma fold_quotes_absent s :
  Forall (λ c, ¬ typographic_quote c) s →
  replace 8221 34 (replace 8220 34 (replace 8217 39 s)) = s.
Proof.
  intros Hs.
  rewrite (replace_absent 8217), (replace_absent 8220),
    (replace_absent 8221);
    [done | ..]; (eapply Forall_impl; [exact Hs |]);
    intros c Hc ->; apply Hc; unfold typographic_quote; auto.
Qed.

Section normalizer_plain_case.
Variable isalnum : N → bool.
Variable lower : pystr → pystr.
Variable A : N → Prop.
Variable lc : N → N.
Hypothesis Hpc : plain_case isalnum lower A lc.

Let normalize := normalize_word isalnum lower.

Lemma normalize_word_plain_fixed r :
  Forall A r → trimmed isspace r → trimmed (edge_junk isalnum) r →
  Forall (λ c, ¬ typographic_quote c) r → Forall (λ c, lc c = c) r →
  normalize r = r.
Proof.
  intros Hr Hsp Hj Hq Hl. unfold normalize, normalize_word.
  unfold strip. rewrite (strip_by_trimmed isspace) by done.
  rewrite fold_quotes_absent by done.
  unfold re_sub_edges. rewrite strip_by_trimmed by done.
  rewrite (pc_lower _ _ _ _ Hpc) by done.
  rewrite (map_ext_Forall _ (λ c, c)) by done. apply map_id.
Qed.

Lemma normalize_word_plain_idempotent s :
  Forall A s → normalize (normalize s) = normalize s.
Proof.
  intros Hs. unfold normalize at 2 3, normalize_word.
  set (b := replace 8221 34 (replace 8220 34 (replace 8217 39 (strip s)))).
  set (core := re_sub_edges isalnum b).
  destruct (pc_marks _ _ _ _ Hpc) as [H39 H34].
  assert (Forall A b) as Hb.
  { unfold b. do 3 (apply replace_Forall; [done |]).
    by apply strip_by_Forall. }
  assert (Forall A core) as Hcore by by apply strip_by_Forall.
  assert (Forall (λ c, ¬ typographic_quote c) core) as Hq
    by apply strip_by_Forall, fold_quotes_none.
  assert (trimmed (edge_junk isalnum) core) as Htr
    by apply strip_by_is_trimmed.
  rewrite (pc_lower _ _ _ _ Hpc) by done.
  apply normalize_word_plain_fixed.
  - apply Forall_map. eapply Forall_impl; [exact Hcore |].
    apply (pc_closed _ _ _ _ Hpc).
  - apply (trimmed_map A (edge_junk isalnum)); [|done..].
    intros c Hc Hj. by apply (pc_kind _ _ _ _ Hpc).
  - apply (trimmed_map A (edge_junk isalnum)); [|done..].
    intros c Hc Hj. by apply (pc_kind _ _ _ _ Hpc).
  - apply Forall_map, Forall_forall. intros c Hc. simpl.
    rewrite Forall_forall in Hcore, Hq.
    apply (pc_quote _ _ _ _ Hpc); auto.
  - apply Forall_map. eapply Forall_impl; [exact Hcore |].
    apply (pc_idemp _ _ _ _ Hpc).
Qed.
End normalizer_plain_case.

(** ** Claims on the normalizer and the tokenizer *)

(** C7, as stated, fails: the capital dotted I (U+0130) is a word
    character that [normalize_word] keeps and lower-cases to "i" followed
    by the combining dot U+0307; the dot is no word character, so a second
    pass strips it. *)
Lemma normalize_word_dotted_I_not_idempotent :
  normalize_word ucd_isalnum ucd_lower [304%N] = [105%N; 775%N] ∧
  normalize_word ucd_isalnum ucd_lower [105%N; 775%N] = [105%N] ∧
  normalize_word ucd_isalnum ucd_lower
    (normalize_word ucd_isalnum ucd_lower [304%N])
  ≠ normalize_word ucd_isalnum ucd_lower [304%N].
Proof. by vm_compute. Qed.

(** C7, amended: the normalizer is idempotent,
    [normalize(normalize(s)) == normalize(s)], on every string over an
    alphabet with plain case: one that [lower] maps character by
    character into itself, idempotently, leaving word characters and
    apostrophes such and making no typographic quote.  Basic Latin is
    such an alphabet ([basic_latin_plain_case]). *)
Theorem normalize_word_idempotent_plain_case isalnum lower
    (A : N → Prop) (lc : N → N) (s : pystr) :
  plain_case isalnum lower A lc →
  Forall A s →
  normalize_word isalnum lower (normalize_word isalnum lower s)
  = normalize_word isalnum lower s.
Proof. intros Hpc Hs. by eapply normalize_word_plain_idempotent. Qed.

Lemma py_is_ascii_decide (s : pystr) :
  forallb (λ c, c <? 128)%N s = true → Forall is_ascii s.
Proof.
  rewrite forallb_forall, Forall_forall. intros H c Hc.
  apply N.ltb_lt, H. by apply list_elem_of_In.
Qed.

Lemma normalize_word_idempotent_plain_case_witness :
  plain_case ucd_isalnum ucd_lower is_ascii ascii_lower ∧
  Forall is_ascii (py "  ...Don't!? ") ∧
  normalize_word ucd_isalnum ucd_lower (py "  ...Don't!? ") = py "don't" ∧
  normalize_word ucd_isalnum ucd_lower
    (normalize_word ucd_isalnum ucd_lower (py "  ...Don't!? "))
  = normalize_word ucd_isalnum ucd_lower (py "  ...Don't!? ").
Proof.
  assert (plain_case ucd_isalnum ucd_lower is_ascii ascii_lower) as Hpc
    by apply basic_latin_plain_case, ucd_basic_latin.
  assert (Forall is_ascii (py "  ...Don't!? ")) as Hs
    by (apply py_is_ascii_decide; by vm_compute).
  split; [exact Hpc |]. split; [exact Hs |]. split; [by vm_compute |].
  exact (normalize_word_idempotent_plain_case ucd_isalnum ucd_lower
           is_ascii ascii_lower (py "  ...Don't!? ") Hpc Hs).
Defined.

(** C8: the tokenizer takes the maximal runs of ASCII letters of the
    text, normalizes each, keeps those of length at least [min_len] and
    returns the distinct ones in increasing lexicographic order; on
    "Hello hello, WORLD!" with [min_len = 2] the result is
    ["hello", "world"]. *)
Theorem tokenize_distinct_sorted_runs isalnum lower (text : pystr)
    (min_len : Z) :
  basic_latin isalnum lower →
  let tokens := tokenize_text_to_unique_words isalnum lower text min_len in
  alpha_runs text (re_findall_alpha text) ∧
  tokens = tokenize_spec isalnum lower text min_len ∧
  (∀ t, t ∈ tokens ↔
        ∃ r, r ∈ re_findall_alpha text ∧
             t = normalize_word isalnum lower r ∧
             (min_len ≤ Z.of_nat (length t))%Z) ∧
  StronglySorted lexico tokens ∧
  tokenize_text_to_unique_words isalnum lower (py "Hello hello, WORLD!") 2
  = [py "hello"; py "world"].
Proof.
  intros Hbl tokens. split; [apply re_findall_alpha_runs |].
  split; [apply tokenize_eq_spec |].
  split; [intros t; apply elem_of_tokenize |].
  split; [apply tokenize_strictly_sorted |].
  rewrite (tokenize_basic_latin _ _ Hbl). by vm_compute.
Qed.

Lemma tokenize_distinct_sorted_runs_witness :
  basic_latin ucd_isalnum ucd_lower ∧
  tokenize_text_to_unique_words ucd_isalnum ucd_lower
    (py "The cat; the CAT's hat, a 2nd Hat.") 3
  = [py "cat"; py "hat"; py "the"] ∧
  StronglySorted lexico
    (tokenize_text_to_unique_words ucd_isalnum ucd_lower
       (py "The cat; the CAT's hat, a 2nd Hat.") 3).
Proof.
  split; [apply ucd_basic_latin |]. split; [by vm_compute |].
  apply (tokenize_distinct_sorted_runs ucd_isalnum ucd_lower
           (py "The cat; the CAT's hat, a 2nd Hat.") 3 ucd_basic_latin).
Defined.

(** C10: every token the tokenizer returns is a fixed point of the
    normalizer, consists of lowercase ASCII letters only and has length
    at least [min_len]. *)
Theorem tokenize_tokens_are_normal isalnum lower (text : pystr)
    (min_len : Z) (t : pystr) :
  basic_latin isalnum lower →
  t ∈ tokenize_text_to_unique_words isalnum lower text min_len →
  normalize_word isalnum lower t = t ∧
  Forall (λ c, ascii_islower c = true) t ∧
  (min_len ≤ Z.of_nat (length t))%Z.
Proof.
  intros Hbl (r & Hr & Ht & Hlen)%elem_of_tokenize.
  apply re_findall_alpha_elem in Hr as [_ Hr].
  rewrite (normalize_word_run _ _ Hbl) in Ht by done.
  assert (Forall (λ c, ascii_islower c = true) t) as Hlow.
  { subst t. apply Forall_map. eapply Forall_impl; [exact Hr |].
    intros c Hc. by apply ascii_isalpha_facts. }
  split; [by apply normalize_word_lowercase | done].
Qed.

Lemma tokenize_tokens_are_normal_witness :
  py "world" ∈ tokenize_text_to_unique_words ucd_isalnum ucd_lower
                 (py "Hello hello, WORLD!") 2 ∧
  normalize_word ucd_isalnum ucd_lower (py "world") = py "world" ∧
  Forall (λ c, ascii_islower c = true) (py "world") ∧
  (2 ≤ Z.of_nat (length (py "world")))%Z.
Proof.
  assert (py "world" ∈ tokenize_text_to_unique_words ucd_isalnum ucd_lower
                         (py "Hello hello, WORLD!") 2) as Hin.
  { apply (bool_decide_unpack _). by vm_compute. }
  split; [exact Hin |].
  exact (tokenize_tokens_are_normal ucd_isalnum ucd_lower
           (py "Hello hello, WORLD!") 2 (py "world") ucd_basic_latin Hin).
Defined.

(** ** The word table: queries and updates *)

Lemma fetchone_by_word_None w db :
  w ∉ (word <$> rows db) → fetchone_by_word w db = None.
Proof.
  unfold fetchone_by_word. intros Hw.
  destruct (filter _ _) as [|r l] eqn:Hf; [done |].
  assert (r ∈ filter (λ r, word r = w) (rows db)) as Hr
    by (rewrite Hf; left).
  apply list_elem_of_filter in Hr as [<- Hr].
  destruct Hw. by apply list_elem_of_fmap_2.
Qed.

Lemma fetchone_by_word_Some w db r :
  fetchone_by_word w db = Some r → r ∈ rows db ∧ word r = w.
Proof.
  unfold fetchone_by_word. intros Hh.
  by apply head_Some_elem_of, list_elem_of_filter in Hh as [? ?].
Qed.

Lemma filter_word_absent w (l : list Row) :
  w ∉ word <$> l → filter (λ r, word r = w) l = [].
Proof.
  intros Hw. induction l as [|r l IH]; [done |].
  rewrite fmap_cons, not_elem_of_cons in Hw. destruct Hw as [Hr Hl].
  rewrite filter_cons_False by congruence. by apply IH.
Qed.

Lemma filter_word_last w (l : list Row) r :
  w ∉ word <$> l → word r = w →
  filter (λ r, word r = w) (l ++ [r]) = [r].
Proof.
  intros Hw Hr. rewrite filter_app, filter_word_absent by done.
  by rewrite filter_cons_True.
Qed.

Section update_where.
Context (P : Row → Prop) `{∀ r, Decision (P r)} (f : Row → Row).

Lemma update_where_frame db :
  (∀ r, frame (f r) = frame r) →
  frame <$> rows (update_where P f db) = frame <$> rows db.
Proof.
  intros Hf. unfold update_where. simpl.
  rewrite <-list_fmap_compose. apply list_fmap_ext.
  intros i r _. simpl. by case_decide.
Qed.
End update_where.

Lemma next_rowid_fresh db r : r ∈ rows db → (id r < next_rowid db)%Z.
Proof.
  unfold next_rowid. intros Hr.
  assert (∀ (l : list Z) s x, x ∈ l → (x ≤ foldr Z.max s l)%Z) as Hmax.
  { intros l s x. induction 1; simpl; lia. }
  pose proof (Hmax (id <$> rows db) (seq db) (id r)
                (list_elem_of_fmap_2 _ _ _ Hr)). lia.
Qed.

(** The two outcomes of an upsert with a non-empty word. *)
Lemma upsert_insert ts w tr db :
  w ≠ [] → strip w ∉ (word <$> rows db) →
  db_add_or_update_word ts w tr db =
  {| rows := rows db ++
             [ {| id := next_rowid db; word := strip w; translations := tr;
                  added_at := ts; anki_created := 0 |} ];
     seq := next_rowid db |}.
Proof.
  intros Hw Hnew. unfold db_add_or_update_word.
  destruct w as [|c w]; [done |]. simpl truthy. cbv iota.
  rewrite fetchone_by_word_None by done.
  unfold insert_word. by rewrite decide_False.
Qed.

Lemma upsert_update ts w tr db row :
  w ≠ [] → fetchone_by_word (strip w) db = Some row →
  db_add_or_update_word ts w tr db =
  if truthy tr && bool_decide (tr ∉ translation_parts (translations row))
  then update_where (λ r, word r = strip w)
         (λ r, set_anki_created 0
                 (set_translations
                    (join sep3 (translation_parts (translations row) ++ [tr]))
                    r)) db
  else db.
Proof.
  intros Hw Hrow. unfold db_add_or_update_word.
  destruct w as [|c w]; [done |]. simpl truthy. cbv iota.
  by rewrite Hrow.
Qed.

Lemma fetchone_by_word_cases w db :
  (∃ row, fetchone_by_word w db = Some row ∧ row ∈ rows db ∧ word row = w) ∨
  (fetchone_by_word w db = None ∧ w ∉ (word <$> rows db)).
Proof.
  destruct (fetchone_by_word w db) as [row|] eqn:Hf.
  - left. exists row. by apply fetchone_by_word_Some in Hf as Hf'.
  - right. split; [done |]. intros (r & -> & Hr)%list_elem_of_fmap.
    unfold fetchone_by_word in Hf.
    assert (r ∈ filter (λ r0, word r0 = word r) (rows db)) as Hin
      by by apply list_elem_of_filter.
    destruct (filter _ _); [by inv Hin | done].
Qed.

(** ** Identifier and creation time *)

Lemma upsert_frame ts w tr db :
  frame <$> rows (db_add_or_update_word ts w tr db) = frame <$> rows db ∨
  ((strip w ∉ (word <$> rows db)) ∧
   rows (db_add_or_update_word ts w tr db) =
   rows db ++ [ {| id := next_rowid db; word := strip w; translations := tr;
                   added_at := ts; anki_created := 0 |} ]).
Proof.
  destruct (decide (w = [])) as [-> | Hw]; [by left |].
  destruct (fetchone_by_word_cases (strip w) db)
    as [(row & Hrow & _) | [_ Hnew]].
  - left. rewrite (upsert_update _ _ _ _ row) by done.
    destruct (_ && _); [|done]. by apply update_where_frame.
  - right. split; [done |]. by rewrite upsert_insert.
Qed.

Lemma merge_translations_frame rowid text db :
  frame <$> rows (db_update_translations_for_id rowid text db) =
  frame <$> rows db.
Proof.
  unfold db_update_translations_for_id.
  destruct (fetchone_by_id rowid db) as [r|]; [|done].
  destruct (merge_parts _ _) as [parts changed].
  case_decide; [|done]. by apply update_where_frame.
Qed.

Lemma run_op_frame db o :
  is_delete o = false →
  frame <$> rows (run_op db o) = frame <$> rows db ∨
  (∃ ts w tr,
     o = Upsert ts w tr ∧ (strip w ∉ (word <$> rows db)) ∧
     rows (run_op db o) =
     rows db ++ [ {| id := next_rowid db; word := strip w; translations := tr;
                     added_at := ts; anki_created := 0 |} ]).
Proof.
  destruct o as [ts w tr | rowid text | w | | ids]; cbn [run_op]; intros Hd.
  - destruct (upsert_frame ts w tr db) as [? | [? ?]]; [by left |].
    right. by exists ts, w, tr.
  - left. apply merge_translations_frame.
  - left. by apply update_where_frame.
  - left. by apply update_where_frame.
  - done.
Qed.

Lemma run_op_keeps_frame db o i r :
  is_delete o = false → rows db !! i = Some r →
  ∃ r', rows (run_op db o) !! i = Some r' ∧ frame r' = frame r.
Proof.
  intros Hd Hi.
  assert ((frame <$> rows (run_op db o)) !! i = Some (frame r)) as Hf.
  { destruct (run_op_frame db o Hd) as [-> | (ts & w & tr & _ & _ & ->)].
    - by rewrite list_lookup_fmap, Hi.
    - rewrite fmap_app, lookup_app_l.
      + by rewrite list_lookup_fmap, Hi.
      + rewrite length_fmap. by eapply lookup_lt_Some. }
  rewrite list_lookup_fmap in Hf.
  destruct (rows (run_op db o) !! i) as [r'|]; [|done].
  exists r'. split; [done |]. simpl in Hf. congruence.
Qed.

Lemma run_ops_keeps_frame os : ∀ db i r,
  forallb (λ o, negb (is_delete o)) os = true →
  rows db !! i = Some r →
  ∃ r', rows (run_ops db os) !! i = Some r' ∧ frame r' = frame r.
Proof.
  induction os as [|o os IH]; intros db i r Hos Hi; simpl.
  - by exists r.
  - simpl in Hos. apply andb_true_iff in Hos as [Ho Hos].
    apply negb_true_iff in Ho.
    destruct (run_op_keeps_frame db o i r Ho Hi) as (r1 & Hr1 & Hf1).
    destruct (IH (run_op db o) i r1 Hos Hr1) as (r' & Hr' & Hf').
    exists r'. split; [done | congruence].
Qed.

(** C9: the identifier and the creation time of a record are set when an
    upsert creates it (a fresh identifier, the time of that upsert) and no
    later upsert, translation merge, export mark or flag reset changes
    them: these operations leave [id], [word] and [added_at] of every row
    as they are. *)
Theorem id_and_added_at_assigned_once (db : Store) (o : op) :
  is_delete o = false →
  (frame <$> rows (run_op db o) = frame <$> rows db ∨
   ∃ ts w tr new,
     o = Upsert ts w tr ∧ rows (run_op db o) = rows db ++ [new] ∧
     added_at new = ts ∧ id new = next_rowid db ∧
     Forall (λ r, (id r < id new)%Z) (rows db)) ∧
  (∀ os i r,
     forallb (λ o, negb (is_delete o)) os = true →
     rows db !! i = Some r →
     ∃ r', rows (run_ops db os) !! i = Some r' ∧
           id r' = id r ∧ added_at r' = added_at r).
Proof.
  intros Hd. split.
  - destruct (run_op_frame db o Hd) as [? | (ts & w & tr & -> & _ & Hrows)];
      [by left |].
    right. eexists ts, w, tr, _. split; [done |]. split; [exact Hrows |].
    simpl. split; [done |]. split; [done |].
    apply Forall_forall. intros r Hr. by apply next_rowid_fresh.
  - intros os i r Hos Hi.
    destruct (run_ops_keeps_frame os db i r Hos Hi) as (r' & Hr' & Hf).
    exists r'. split; [done |]. unfold frame in Hf. by inv Hf.
Qed.

Lemma id_and_added_at_assigned_once_witness :
  is_delete (MergeTranslations 1 (py "felino | minino")) = false ∧
  ∃ r', rows (run_ops cat_store
                [ MergeTranslations 1 (py "felino | minino");
                  MarkExported (py "cat");
                  Upsert ts1 (py "cat") (py "gata");
                  Upsert ts1 (py "dog") (py "perro");
                  ResetAllExportFlags ]) !! 0 = Some r' ∧
        id r' = 1%Z ∧ added_at r' = ts0.
Proof.
  split; [reflexivity |].
  apply (proj2 (id_and_added_at_assigned_once cat_store
                  (MergeTranslations 1 (py "felino | minino")) eq_refl)
           _ 0 {| id := 1; word := py "cat"; translations := py "gato";
                  added_at := ts0; anki_created := 0 |});
    reflexivity.
Defined.

(** ** The translation gateway *)

Lemma translate_None ts w reply db :
  translate_online_mymemory w reply = None →
  translate ts w reply db =
  (db, {| fin_word := w; fin_translation := []; fin_success := false |}).
Proof. unfold translate. by intros ->. Qed.

(** C6: a response whose status is not 200, or whose translated text is
    empty or equal to the word, makes the gateway fail; whenever the
    gateway fails, [translate] reports failure and the store is left as
    it was. *)
Theorem translate_failure_keeps_store (ts w : pystr) (status_code : Z)
    (body : json_body) (db : Store) :
  status_code ≠ 200%Z ∨ body = TranslatedText [] ∨ body = TranslatedText w →
  translate_online_mymemory w (Response status_code body) = None ∧
  (translate ts w (Response status_code body) db).1 = db ∧
  fin_success (translate ts w (Response status_code body) db).2 = false ∧
  (∀ reply,
     translate_online_mymemory w reply = None →
     (translate ts w reply db).1 = db).
Proof.
  intros Hfail.
  assert (translate_online_mymemory w (Response status_code body) = None)
    as Hnone.
  { simpl. destruct (Z.eqb_spec status_code 200) as [-> | ?]; [|done].
    destruct Hfail as [? | [-> | ->]]; [done | done |].
    rewrite bool_decide_eq_false_2 by auto. by rewrite andb_false_r. }
  split; [done |]. rewrite (translate_None _ _ _ _ Hnone).
  split; [done |]. split; [done |].
  intros reply Hr. by rewrite (translate_None _ _ _ _ Hr).
Qed.

Lemma translate_failure_keeps_store_witness :
  (200%Z ≠ 200%Z ∨ TranslatedText (py "cat") = TranslatedText []
   ∨ TranslatedText (py "cat") = TranslatedText (py "cat")) ∧
  translate_online_mymemory (py "cat")
    (Response 200 (TranslatedText (py "cat"))) = None ∧
  (translate ts1 (py "cat") (Response 200 (TranslatedText (py "cat")))
     cat_store).1 = cat_store.
Proof.
  split; [by right; right |].
  pose proof (translate_failure_keeps_store ts1 (py "cat") 200
                (TranslatedText (py "cat")) cat_store
                (or_intror (or_intror eq_refl))) as (H1 & H2 & _).
  by split.
Defined.

(** ** Upsert of a word that is already there *)

Lemma fmap_update_word_absent w (f : Row → Row) (l : list Row) :
  w ∉ (word <$> l) →
  (λ r, if decide (word r = w) then f r else r) <$> l = l.
Proof.
  induction l as [|r l IH]; [done |]. rewrite !fmap_cons, not_elem_of_cons.
  intros [Hr Hl]. rewrite IH by done. by rewrite decide_False.
Qed.

Lemma update_word_last w (f : Row → Row) (l : list Row) r s :
  w ∉ (word <$> l) → word r = w →
  update_where (λ r, word r = w) f {| rows := l ++ [r]; seq := s |} =
  {| rows := l ++ [f r]; seq := s |}.
Proof.
  intros Hw Hr. unfold update_where. simpl. f_equal.
  rewrite fmap_app, fmap_update_word_absent by done. simpl.
  by rewrite decide_True.
Qed.

Lemma fetchone_by_word_last w (l : list Row) r s :
  w ∉ (word <$> l) → word r = w →
  fetchone_by_word w {| rows := l ++ [r]; seq := s |} = Some r.
Proof.
  intros Hw Hr. unfold fetchone_by_word. simpl.
  by rewrite filter_word_last.
Qed.

(** C4: in a store without a record for "cat", [upsert("cat", "gato")]
    twice leaves exactly one record for "cat", with the translations
    ["gato"]: the second call changes nothing.  [upsert("cat", "felino")]
    after [upsert("cat", "gato")] makes the translations
    ["gato", "felino"], in that order, and sets the exported flag of the
    record, raised in between, back to 0. *)
Theorem upsert_existing_word_merges (db : Store) (t1 t2 : pystr) :
  py "cat" ∉ (word <$> rows db) →
  let db1 := db_add_or_update_word t1 (py "cat") (py "gato") db in
  let db2 := db_add_or_update_word t2 (py "cat") (py "gato") db1 in
  let marked := db_set_anki_created_for_word (py "cat") db1 in
  let db3 := db_add_or_update_word t2 (py "cat") (py "felino") marked in
  db2 = db1 ∧
  (∃ r, filter (λ r, word r = py "cat") (rows db2) = [r] ∧
        translation_parts (translations r) = [py "gato"]) ∧
  (∃ r, filter (λ r, word r = py "cat") (rows marked) = [r] ∧
        anki_created r = 1%Z) ∧
  (∃ r, filter (λ r, word r = py "cat") (rows db3) = [r] ∧
        translation_parts (translations r) = [py "gato"; py "felino"] ∧
        anki_created r = 0%Z).
Proof.
  intros Hnew db1 db2 marked db3.
  assert (strip (py "cat") = py "cat") as Hstrip by by vm_compute.
  assert (py "cat" ≠ []) as Hne by done.
  set (created := {| id := next_rowid db; word := py "cat";
                     translations := py "gato"; added_at := t1;
                     anki_created := 0 |}).
  assert (db1 = {| rows := rows db ++ [created]; seq := next_rowid db |})
    as Hdb1.
  { unfold db1. rewrite upsert_insert; rewrite ?Hstrip; done. }
  assert (db2 = db1) as Hdb2.
  { unfold db2.
    rewrite (upsert_update _ _ _ _ created);
      [by vm_compute | done |].
    rewrite Hstrip, Hdb1. by apply fetchone_by_word_last. }
  assert (marked =
          {| rows := rows db ++ [set_anki_created 1 created];
             seq := next_rowid db |}) as Hmarked.
  { unfold marked, db_set_anki_created_for_word. rewrite Hdb1.
    by apply update_word_last. }
  set (final := set_anki_created 0
                  (set_translations (py "gato | felino")
                     (set_anki_created 1 created))).
  assert (db3 = {| rows := rows db ++ [final]; seq := next_rowid db |})
    as Hdb3.
  { unfold db3.
    rewrite (upsert_update _ _ _ _ (set_anki_created 1 created));
      [| done | rewrite Hstrip, Hmarked; by apply fetchone_by_word_last].
    replace (truthy (py "felino") &&
             bool_decide (py "felino" ∉ translation_parts
                            (translations (set_anki_created 1 created))))
      with true by by vm_compute.
    rewrite Hstrip, Hmarked.
    rewrite (update_word_last (py "cat")) by done.
    do 2 f_equal. }
  split; [done |]. split; [|split].
  - exists created. rewrite Hdb2, Hdb1. simpl.
    split; [by apply filter_word_last | by vm_compute].
  - exists (set_anki_created 1 created). rewrite Hmarked. simpl.
    split; [by apply filter_word_last | done].
  - exists final. rewrite Hdb3. simpl.
    split; [by apply filter_word_last |]. split; [by vm_compute | done].
Qed.

Lemma upsert_existing_word_merges_witness :
  (py "cat" ∉ (word <$> rows empty_store)) ∧
  db_add_or_update_word ts1 (py "cat") (py "gato")
    (db_add_or_update_word ts0 (py "cat") (py "gato") empty_store)
  = db_add_or_update_word ts0 (py "cat") (py "gato") empty_store.
Proof.
  assert (py "cat" ∉ (word <$> rows empty_store)) as Hnew
    by (simpl; apply not_elem_of_nil).
  split; [exact Hnew |].
  exact (proj1 (upsert_existing_word_merges empty_store ts0 ts1 Hnew)).
Defined.

(** ** Flashcard export *)

Lemma sublist_fmap_NoDup {A B} (f : A → B) (l1 l2 : list A) :
  l1 `sublist_of` l2 → NoDup (f <$> l2) → NoDup (f <$> l1).
Proof.
  induction 1 as [|x l1 l2 Hsub IH | x l1 l2 Hsub IH]; simpl; [done | |].
  - rewrite !NoDup_cons. intros [Hx Hnd]. split; [|by apply IH].
    intros (y & Hy & Hin)%list_elem_of_fmap. apply Hx. rewrite Hy.
    apply list_elem_of_fmap_2. by eapply elem_of_sublist.
  - rewrite NoDup_cons. intros [_ Hnd]. by apply IH.
Qed.

(** Marking the selected words one after the other raises the flag of
    exactly the rows that carry one of these words. *)
Lemma mark_selected_rows (sel : list (pystr * pystr)) : ∀ db,
  rows (foldl (λ d row, db_set_anki_created_for_word row.1 d) db sel) =
  (λ r, if decide (word r ∈ sel.*1) then set_anki_created 1 r else r)
    <$> rows db.
Proof.
  induction sel as [|[w tr] sel IH]; intros db; simpl.
  - rewrite <-(list_fmap_id (rows db)) at 1. apply list_fmap_ext.
    by intros i r _.
  - rewrite IH. unfold db_set_anki_created_for_word, update_where. simpl.
    rewrite <-list_fmap_compose. apply list_fmap_ext. intros i r _. simpl.
    destruct (decide (word r = w)) as [Hw | Hw]; simpl;
      destruct (decide (word r ∈ sel.*1)) as [Hin | Hin];
      case_decide as Hin'; try done;
      try (destruct Hin'; apply elem_of_cons; by auto);
      try (apply elem_of_cons in Hin' as [? | ?]; done).
Qed.

Lemma select_for_export_words limit db :
  (select_for_export limit db).*1 = word <$> select_rows limit db.
Proof.
  unfold select_for_export. rewrite <-list_fmap_compose.
  by apply list_fmap_ext.
Qed.

Lemma unexported_after_mark (W : list pystr) (l : list Row) :
  filter (λ r, anki_created r = 0%Z)
    ((λ r, if decide (word r ∈ W) then set_anki_created 1 r else r) <$> l) =
  filter (λ r, word r ∉ W) (filter (λ r, anki_created r = 0%Z) l).
Proof.
  induction l as [|r l IH]; [done |]. rewrite fmap_cons, !filter_cons, IH.
  destruct (decide (word r ∈ W)) as [Hin | Hin].
  - rewrite decide_False by done.
    destruct (decide (anki_created r = 0%Z)); [|done].
    by rewrite filter_cons_False by auto.
  - destruct (decide (anki_created r = 0%Z)); [|done].
    by rewrite filter_cons_True.
Qed.

Lemma filter_out_prefix_words (l1 l2 : list Row) :
  NoDup (word <$> (l1 ++ l2)) →
  filter (λ r, word r ∉ (word <$> l1)) (l1 ++ l2) = l2.
Proof.
  rewrite fmap_app, NoDup_app. intros (_ & Hdisj & _).
  rewrite filter_app.
  assert (∀ (k : list Row) (P : Row → Prop) `{∀ r, Decision (P r)},
            Forall (λ r, ¬ P r) k → filter P k = []) as Hnone.
  { intros k P ?. induction 1; [done |]. by rewrite filter_cons_False. }
  assert (∀ (k : list Row) (P : Row → Prop) `{∀ r, Decision (P r)},
            Forall P k → filter P k = k) as Hall.
  { intros k P ?. induction 1 as [|? ? ? ? IH]; [done |].
    by rewrite filter_cons_True, IH. }
  rewrite Hnone, Hall; [done | |].
  - apply Forall_forall. intros r Hr Hin. apply (Hdisj (word r)); [done |].
    by apply list_elem_of_fmap_2.
  - apply Forall_forall. intros r Hr Hnot. apply Hnot.
    by apply list_elem_of_fmap_2.
Qed.

Lemma select_rows_take limit db :
  (0 ≤ limit)%Z →
  select_rows limit db = take (Z.to_nat limit) (unexported db).
Proof.
  intros Hl. unfold select_rows.
  by destruct (Z.ltb_spec limit 0); [lia |].
Qed.

Lemma export_anki_store limit path db :
  path ≠ [] →
  (export_anki limit path db).1 =
  foldl (λ d row, db_set_anki_created_for_word row.1 d) db
    (select_for_export limit db).
Proof.
  intros Hp. unfold export_anki.
  destruct (select_for_export limit db) as [|r sel]; [done |].
  by destruct path.
Qed.

Lemma unexported_after_export limit path db :
  NoDup (word <$> rows db) → (0 ≤ limit)%Z → path ≠ [] →
  unexported (export_anki limit path db).1 =
  drop (Z.to_nat limit) (unexported db).
Proof.
  intros Hnd Hl Hp. rewrite export_anki_store by done.
  unfold unexported at 1. rewrite mark_selected_rows, unexported_after_mark.
  fold (unexported db).
  rewrite select_for_export_words, select_rows_take by done.
  set (n := Z.to_nat limit). set (U := unexported db).
  transitivity (filter (λ r, word r ∉ (word <$> take n U))
                  (take n U ++ drop n U)).
  { by rewrite (firstn_skipn n U). }
  apply filter_out_prefix_words. rewrite (firstn_skipn n U).
  apply (sublist_fmap_NoDup word U (rows db)); [|done].
  apply sublist_filter.
Qed.

(** The UNIQUE constraint on [word] holds in every store the operations
    build. *)
Lemma words_of_frames (l : list Row) : word <$> l = (λ f, f.1.2) <$> (frame <$> l).
Proof. rewrite <-list_fmap_compose. by apply list_fmap_ext. Qed.

Lemma run_op_unique_words db o :
  NoDup (word <$> rows db) → NoDup (word <$> rows (run_op db o)).
Proof.
  intros Hnd. destruct (is_delete o) eqn:Hd.
  - destruct o as [| | | | ids]; try done. simpl.
    destruct ids as [|i ids]; [done |]. simpl.
    apply (sublist_fmap_NoDup word _ (rows db)); [|done].
    apply sublist_filter.
  - destruct (run_op_frame db o Hd) as [Hf | (ts & w & tr & _ & Hnew & ->)].
    + by rewrite words_of_frames, Hf, <-words_of_frames.
    + rewrite fmap_app. simpl. apply NoDup_app. split; [done |].
      split; [|apply NoDup_singleton].
      intros x Hx ->%list_elem_of_singleton. done.
Qed.

Lemma run_ops_unique_words os : ∀ db,
  NoDup (word <$> rows db) → NoDup (word <$> rows (run_ops db os)).
Proof.
  induction os as [|o os IH]; intros db Hnd; [done |].
  simpl. by apply IH, run_op_unique_words.
Qed.

Lemma reachable_unique_words os :
  NoDup (word <$> rows (run_ops empty_store os)).
Proof. apply run_ops_unique_words. simpl. apply NoDup_nil_2. Qed.

(** C5: the export selects rows whose flag is 0, at most [limit] of
    them; a successful export raises the flag of each selected row, so
    that the rows still to export are the unexported rows of before
    without the first [limit].  With five unexported records a selection
    of three returns three, and after their export a selection of ten
    returns the two that remain. *)
Theorem export_selects_unexported (db : Store) (limit : Z) (path : pystr) :
  NoDup (word <$> rows db) → (0 ≤ limit)%Z → path ≠ [] →
  let selected := select_rows limit db in
  let db' := (export_anki limit path db).1 in
  select_for_export limit db = (λ r, (word r, translations r)) <$> selected ∧
  selected `sublist_of` rows db ∧
  Forall (λ r, anki_created r = 0%Z) selected ∧
  (Z.of_nat (length (select_for_export limit db)) ≤ limit)%Z ∧
  (∀ r, r ∈ selected → set_anki_created 1 r ∈ rows db') ∧
  unexported db' = drop (Z.to_nat limit) (unexported db) ∧
  (length (unexported db) = 5 → limit = 3%Z →
   length (select_for_export 3 db) = 3 ∧
   length (select_for_export 10 db') = 2 ∧
   unexported db = selected ++ select_rows 10 db').
Proof.
  intros Hnd Hl Hp selected db'.
  assert (selected = take (Z.to_nat limit) (unexported db)) as Hsel
    by by apply select_rows_take.
  assert (selected `sublist_of` rows db) as Hsub.
  { rewrite Hsel. etrans; [apply sublist_take | apply sublist_filter]. }
  assert (unexported db' = drop (Z.to_nat limit) (unexported db)) as Hrest
    by by apply unexported_after_export.
  split; [done |]. split; [done |].
  split; [|split; [|split; [|split; [done |]]]].
  - apply Forall_forall. intros r Hr. rewrite Hsel in Hr.
    apply (elem_of_sublist _ (unexported db)) in Hr; [|apply sublist_take].
    by apply list_elem_of_filter in Hr as [? _].
  - unfold select_for_export. fold selected.
    rewrite length_fmap, Hsel, length_take. lia.
  - intros r Hr. unfold db'. rewrite export_anki_store by done.
    rewrite mark_selected_rows, select_for_export_words. fold selected.
    apply list_elem_of_fmap. exists r. split.
    + rewrite decide_True; [done |]. by apply list_elem_of_fmap_2.
    + by eapply elem_of_sublist.
  - intros Hfive ->.
    assert (select_rows 10 db' = drop 3 (unexported db)) as Hten.
    { rewrite select_rows_take by lia. rewrite Hrest.
      apply take_ge. rewrite length_drop. lia. }
    unfold select_for_export. fold selected.
    rewrite !length_fmap, Hten, Hsel. change (Z.to_nat 3) with 3.
    rewrite length_take, length_drop, Hfive. split; [done |].
    split; [done |]. by rewrite firstn_skipn.
Qed.

Lemma export_selects_unexported_witness :
  NoDup (word <$> rows farm_store) ∧ (0 ≤ 3)%Z ∧ py "anki_cards.csv" ≠ [] ∧
  length (unexported farm_store) = 5 ∧
  length (filter (λ r, anki_created r = 1%Z) (rows farm_store)) = 3 ∧
  length (select_for_export 3 farm_store) = 3 ∧
  length (select_for_export 10
            (export_anki 3 (py "anki_cards.csv") farm_store).1) = 2.
Proof.
  assert (NoDup (word <$> rows farm_store)) as Hnd
    by apply reachable_unique_words.
  assert ((0 ≤ 3)%Z) as Hl by lia.
  assert (py "anki_cards.csv" ≠ []) as Hp by done.
  assert (length (unexported farm_store) = 5) as Hfive by by vm_compute.
  pose proof (export_selects_unexported farm_store 3 (py "anki_cards.csv")
                Hnd Hl Hp) as (_ & _ & _ & _ & _ & _ & Hscen).
  destruct (Hscen Hfive eq_refl) as (H3 & H2 & _).
  split; [exact Hnd |]. split; [exact Hl |]. split; [exact Hp |].
  split; [exact Hfive |]. split; [by vm_compute |].
  split; [exact H3 | exact H2].
Defined.

(** ** Upsert and blank words *)

Lemma strip_idempotent s : strip (strip s) = strip s.
Proof. apply strip_by_trimmed, strip_by_is_trimmed. Qed.

(** The empty word is refused. *)
Lemma upsert_empty_word ts tr db : db_add_or_update_word ts [] tr db = db.
Proof. done. Qed.

(** A word enters the table trimmed: a word that is not blank and its
    trimmed form are upserted alike. *)
Lemma upsert_trims_word ts w tr db :
  strip w ≠ [] →
  db_add_or_update_word ts w tr db = db_add_or_update_word ts (strip w) tr db.
Proof.
  intros Hs. unfold db_add_or_update_word. rewrite strip_idempotent.
  destruct w as [|c w]; [done |]. by destruct (strip (c :: w)).
Qed.

(** A blank word that is not empty passes the guard, which looks at the
    word before it is trimmed, and gets a row with the empty key. *)
Lemma upsert_blank_word ts w tr db :
  w ≠ [] → strip w = [] → [] ∉ (word <$> rows db) →
  rows (db_add_or_update_word ts w tr db) =
  rows db ++ [ {| id := next_rowid db; word := []; translations := tr;
                  added_at := ts; anki_created := 0 |} ].
Proof.
  intros Hw Hs Hnew. rewrite upsert_insert by (rewrite ?Hs; done).
  by rewrite Hs.
Qed.

(** C2, at a word of three spaces: the guard [if not word] lets it pass,
    the trimmed key is empty, and the call on the empty store inserts a
    row whose word is the empty string, where the claim promises an
    unchanged store. *)
Theorem upsert_blank_word_inserts_row :
  truthy (py "   ") = true ∧
  strip (py "   ") = [] ∧
  db_add_or_update_word ts0 (py "   ") [] empty_store =
  {| rows := [ {| id := 1; word := []; translations := [];
                  added_at := ts0; anki_created := 0 |} ];
     seq := 1 |} ∧
  db_add_or_update_word ts0 (py "   ") [] empty_store ≠ empty_store.
Proof. by vm_compute. Qed.

(** ** The translation list after an upsert *)

(** C3, at two inputs of [upsert]: a translation that holds the
    separator is stored as it comes, so "a | a" on a new word yields the
    list ["a", "a"]; a translation is compared untrimmed, so " gato"
    after "gato" yields ["gato", " gato"], two entries that are equal
    after trimming.  Either store breaks the invariant of the claim. *)
Theorem upsert_breaks_translation_invariant :
  let db1 := run_ops empty_store [Upsert ts0 (py "cat") (py "a | a")] in
  let db2 := run_ops empty_store
               [Upsert ts0 (py "cat") (py "gato");
                Upsert ts1 (py "cat") (py " gato")] in
  (λ r, translation_parts (translations r)) <$> rows db1
  = [[py "a"; py "a"]] ∧
  (λ r, translation_parts (translations r)) <$> rows db2
  = [[py "gato"; py " gato"]] ∧
  strip (py " gato") = strip (py "gato") ∧
  ¬ store_translations_clean db1 ∧
  ¬ store_translations_clean db2.
Proof.
  intros db1 db2. split; [by vm_compute |]. split; [by vm_compute |].
  split; [by vm_compute |].
  unfold store_translations_clean, translations_clean.
  split; apply (bool_decide_eq_false_1 _); by vm_compute.
Qed.

(** ** Merging translations into a record *)

Lemma merge_parts_cons parts np new_parts :
  merge_parts parts (np :: new_parts) =
  if decide (np ∈ parts) then merge_parts parts new_parts
  else ((merge_parts (parts ++ [np]) new_parts).1, true).
Proof.
  unfold merge_parts. simpl. unfold merge_step at 2. simpl.
  case_decide; [done |].
  assert (∀ l st, (foldl merge_step (st, true) l).2 = true) as Htrue.
  { induction l as [|x l IH]; intros st; [done |]. simpl.
    unfold merge_step at 2. simpl. case_decide; apply IH. }
  assert (∀ l st b, (foldl merge_step (st, b) l).1 =
                    (foldl merge_step (st, false) l).1) as Hfst.
  { induction l as [|x l IH]; intros st b; [done |]. simpl.
    unfold merge_step at 2 4. simpl. case_decide; [apply IH |].
    by rewrite (IH _ true). }
  rewrite (surjective_pairing (foldl _ _ _)). f_equal; [apply Hfst | apply Htrue].
Qed.

(** [changed] tells whether a piece was appended. *)
Lemma merge_parts_changed new_parts : ∀ parts,
  (merge_parts parts new_parts).2 = true ↔ ∃ np, np ∈ new_parts ∧ np ∉ parts.
Proof.
  induction new_parts as [|np new_parts IH]; intros parts.
  - split; [done |]. intros (np & Hnp & _). by inv Hnp.
  - rewrite merge_parts_cons. case_decide as Hin.
    + rewrite IH. split.
      * intros (x & Hx & Hnot). exists x. split; [by right | done].
      * intros (x & [-> | Hx]%elem_of_cons & Hnot); [done |]. by exists x.
    + simpl. split; [|done]. intros _. exists np. split; [left | done].
Qed.

Lemma merge_parts_unchanged new_parts parts :
  (merge_parts parts new_parts).2 = false →
  (merge_parts parts new_parts).1 = parts.
Proof.
  revert parts. induction new_parts as [|np new_parts IH]; intros parts;
    [done |].
  rewrite merge_parts_cons. case_decide; [apply IH | done].
Qed.

(** With a stored text in canonical form, a merge that brings no new
    piece leaves the store as it is. *)
Lemma merge_translations_noop rowid text db r :
  fetchone_by_id rowid db = Some r →
  canonical (translations r) →
  (∀ np, np ∈ new_translation_parts text →
         np ∈ translation_parts (translations r)) →
  db_update_translations_for_id rowid text db = db.
Proof.
  intros Hr Hcan Hall. unfold db_update_translations_for_id. rewrite Hr.
  destruct (merge_parts _ _) as [parts changed] eqn:Hm.
  assert (changed = false) as ->.
  { destruct changed; [|done].
    assert ((merge_parts (translation_parts (translations r))
               (new_translation_parts text)).2 = true) as Hc
      by by rewrite Hm.
    apply merge_parts_changed in Hc as (np & Hnp & Hnot).
    destruct Hnot. by apply Hall. }
  assert (parts = translation_parts (translations r)) as ->.
  { pose proof (merge_parts_unchanged (new_translation_parts text)
                  (translation_parts (translations r))) as Hu.
    rewrite Hm in Hu. by apply Hu. }
  by rewrite decide_False by (intros Hne; by apply Hne).
Qed.

(** C1, on a record whose stored text is "a |  | b", exported, merged
    with "a": the translation list is ["a", "b"], the piece "a" is in it,
    the loop appends nothing and leaves [changed] false; yet the joined
    text "a | b" differs from the stored one, so the row is rewritten and
    its flag reset to 0.  Saving the stored text itself does the same. *)
Theorem merge_resets_flag_without_new_piece :
  let db1 := run_ops empty_store
               [Upsert ts0 (py "cat") (py "a |  | b");
                MarkExported (py "cat")] in
  rows db1 = [ {| id := 1; word := py "cat"; translations := py "a |  | b";
                  added_at := ts0; anki_created := 1 |} ] ∧
  translation_parts (py "a |  | b") = [py "a"; py "b"] ∧
  new_translation_parts (py "a") = [py "a"] ∧
  merge_parts [py "a"; py "b"] [py "a"] = ([py "a"; py "b"], false) ∧
  rows (db_update_translations_for_id 1 (py "a") db1)
  = [ {| id := 1; word := py "cat"; translations := py "a | b";
         added_at := ts0; anki_created := 0 |} ] ∧
  rows (db_update_translations_for_id 1 (py "a |  | b") db1)
  = [ {| id := 1; word := py "cat"; translations := py "a | b";
         added_at := ts0; anki_created := 0 |} ].
Proof. by vm_compute. Qed.

(** ** Splitting and joining *)

Lemma starts_with_app sep s :
  starts_with sep s = true → s = sep ++ drop (length sep) s.
Proof.
  revert s. induction sep as [|a sep IH]; intros [|b s]; simpl; try done.
  intros [->%N.eqb_eq Hs]%andb_true_iff. f_equal. by apply IH.
Qed.

Lemma split_go_nonempty sep skip cur s : split_go sep skip cur s ≠ [].
Proof.
  revert skip cur. induction s as [|c s IH]; intros skip cur; simpl; [done |].
  destruct skip; [|apply IH]. destruct (starts_with sep (c :: s)); [done |].
  apply IH.
Qed.

Lemma join_cons sep x l : l ≠ [] → join sep (x :: l) = x ++ sep ++ join sep l.
Proof. by destruct l. Qed.

Lemma join_split_go sep s : ∀ skip cur,
  sep ≠ [] → join sep (split_go sep skip cur s) = cur ++ drop skip s.
Proof.
  induction s as [|c s IH]; intros skip cur Hsep; simpl.
  - by rewrite drop_nil, app_nil_r.
  - destruct skip as [|k]; [|by apply IH].
    destruct (starts_with sep (c :: s)) eqn:Hst.
    + rewrite join_cons by apply split_go_nonempty. rewrite IH by done.
      simpl. apply starts_with_app in Hst.
      destruct sep as [|a sep]; [done |]. simpl in *.
      rewrite Nat.sub_0_r. injection Hst as -> Hs. by rewrite <-Hs.
    + rewrite IH by done. simpl. by rewrite <-app_assoc.
Qed.

(** [sep.join(s.split(sep)) == s] *)
Lemma join_split sep s : sep ≠ [] → join sep (split sep s) = s.
Proof. intros Hsep. unfold split. by rewrite join_split_go. Qed.

(** The pieces of a split on one character do not hold that character. *)
Lemma split_char_pieces c s : ∀ cur,
  c ∉ cur → Forall (λ p, c ∉ p) (split_go [c] 0 cur s).
Proof.
  induction s as [|x s IH]; intros cur Hcur; simpl.
  - by constructor.
  - destruct (N.eqb_spec c x) as [-> | Hne]; simpl.
    + constructor; [done |]. apply IH, not_elem_of_nil.
    + apply IH. rewrite elem_of_app, list_elem_of_singleton.
      by intros [? | ?].
Qed.

Lemma elem_of_dropwhile {A} (p : A → bool) (l : list A) x :
  x ∈ dropwhile p l → x ∈ l.
Proof.
  intros Hx. destruct (dropwhile_suffix p l) as [k ->].
  apply elem_of_app. by right.
Qed.

Lemma elem_of_strip_by p s x : x ∈ strip_by p s → x ∈ s.
Proof.
  unfold strip_by, rstrip_by, lstrip_by. rewrite elem_of_reverse.
  intros Hx%elem_of_dropwhile. rewrite elem_of_reverse in Hx.
  by apply elem_of_dropwhile in Hx.
Qed.

(** The pieces a merge brings: trimmed, not empty, without a bar. *)
Lemma new_translation_parts_elem text np :
  np ∈ new_translation_parts text →
  np ≠ [] ∧ (124%N ∉ np) ∧ strip np = np.
Proof.
  unfold new_translation_parts.
  intros [Hne (p & -> & Hp)%elem_of_map]%list_elem_of_filter.
  split; [done |]. split; [|apply strip_idempotent].
  pose proof (split_char_pieces 124 text [] (not_elem_of_nil _)) as Hall.
  rewrite Forall_forall in Hall. intros Hin. apply (Hall p Hp).
  by apply elem_of_strip_by in Hin.
Qed.

(** Lengths and counts of characters add up over a join. *)
Section measure.
Variable μ : pystr → nat.
Hypothesis μ_app : ∀ a b, μ (a ++ b) = μ a + μ b.

Lemma measure_join sep l :
  l ≠ [] → μ (join sep l) + μ sep = μ (concat l) + μ sep * length l.
Proof.
  induction l as [|x l IH]; [done |]. intros _.
  destruct l as [|y l].
  - simpl. rewrite app_nil_r. lia.
  - rewrite join_cons by done. change (concat (x :: y :: l)) with (x ++ concat (y :: l)).
    rewrite !μ_app. specialize (IH ltac:(done)).
    change (length (x :: y :: l)) with (S (length (y :: l))).
    rewrite Nat.mul_succ_r. lia.
Qed.
End measure.

Lemma concat_filter_nonempty (l : list pystr) :
  concat (filter (λ p, p ≠ []) l) = concat l.
Proof.
  induction l as [|p l IH]; [done |]. rewrite filter_cons.
  destruct (decide (p ≠ [])) as [Hp | Hp]; simpl; [by rewrite IH |].
  apply dec_stable in Hp. by rewrite Hp.
Qed.

Lemma bars_app a b : bars (a ++ b) = bars a + bars b.
Proof. unfold bars. by rewrite filter_app, length_app. Qed.

Lemma bars_concat_none (l : list pystr) :
  Forall (λ p, 124%N ∉ p) l → bars (concat l) = 0.
Proof.
  induction 1 as [|p l Hp _ IH]; [done |]. simpl. rewrite bars_app, IH.
  unfold bars. induction p as [|c p IHp]; [done |].
  apply not_elem_of_cons in Hp as [Hc Hp].
  rewrite filter_cons_False by (intros ->; done). by apply IHp.
Qed.

Lemma length_concat_pos (l : list pystr) :
  l ≠ [] → Forall (λ p, p ≠ []) l → 0 < length (concat l).
Proof.
  destruct 2 as [|p l Hp _]; [done |]. simpl. rewrite length_app.
  destruct p; [done |]. simpl. lia.
Qed.

(** What the loop appends: pieces of [new_parts] that [parts] lacks, at
    least one exactly when [changed] is raised. *)
Lemma merge_parts_added new_parts : ∀ parts,
  ∃ added,
    (merge_parts parts new_parts).1 = parts ++ added ∧
    (∀ x, x ∈ added → x ∈ new_parts ∧ x ∉ parts) ∧
    ((merge_parts parts new_parts).2 = true ↔ added ≠ []).
Proof.
  induction new_parts as [|np new_parts IH]; intros parts.
  - exists []. split; [by rewrite app_nil_r |]. split; [|done].
    intros x Hx. by inv Hx.
  - rewrite merge_parts_cons. case_decide as Hin.
    + destruct (IH parts) as (added & H1 & H2 & H3).
      exists added. split; [done |]. split; [|done].
      intros x Hx. destruct (H2 x Hx). split; [by right | done].
    + destruct (IH (parts ++ [np])) as (added & H1 & H2 & H3).
      exists (np :: added). simpl. split; [by rewrite H1, <-app_assoc |].
      split; [|done].
      intros x [-> | Hx]%elem_of_cons; [split; [left | done] |].
      destruct (H2 x Hx) as [Hx1 Hx2]. split; [by right |].
      intros Hp. apply Hx2, elem_of_app. by left.
Qed.

(** When a piece is appended the joined text differs from the stored
    one, whatever the stored text: a join that equalled it would have as
    many bars, hence as many pieces, and then be longer by the appended
    pieces. *)
Lemma merge_added_changes_text existing text :
  (merge_parts (translation_parts existing)
     (new_translation_parts text)).2 = true →
  join sep3 (merge_parts (translation_parts existing)
               (new_translation_parts text)).1 ≠ existing.
Proof.
  intros Hch.
  destruct (merge_parts_added (new_translation_parts text)
              (translation_parts existing)) as (added & -> & Hadd & Hne).
  apply Hne in Hch. intros Heq.
  assert (Forall (λ p, p ≠ []) added ∧ Forall (λ p, 124%N ∉ p) added)
    as [Hne' Hbar].
  { split; apply Forall_forall; intros x Hx;
      destruct (Hadd x Hx) as [Hx' _];
      by apply new_translation_parts_elem in Hx' as (? & ? & ?). }
  assert (sep3 ≠ []) as Hsep by done.
  pose proof (join_split sep3 existing Hsep) as Hjs.
  set (Q := split sep3 existing) in *.
  set (P := translation_parts existing) in *.
  assert (Q ≠ []) as HQ by apply split_go_nonempty.
  assert (P ++ added ≠ []) as HPA by (by destruct P, added).
  assert (concat P = concat Q) as Hcat by apply concat_filter_nonempty.
  pose proof (measure_join length (@length_app N) sep3 _ HPA) as L1.
  pose proof (measure_join length (@length_app N) sep3 _ HQ) as L2.
  pose proof (measure_join bars bars_app sep3 _ HPA) as B1.
  pose proof (measure_join bars bars_app sep3 _ HQ) as B2.
  rewrite Heq in L1, B1. rewrite Hjs in L2, B2.
  rewrite concat_app, length_app, Hcat in L1.
  rewrite concat_app, bars_app, Hcat, (bars_concat_none added) in B1 by done.
  rewrite length_app in L1, B1.
  change (length sep3) with 3 in *. change (bars sep3) with 1 in *.
  pose proof (length_concat_pos added Hch Hne'). lia.
Qed.

Lemma fetchone_by_id_Some rowid db r :
  fetchone_by_id rowid db = Some r → r ∈ rows db ∧ id r = rowid.
Proof.
  unfold fetchone_by_id. intros Hh.
  by apply head_Some_elem_of, list_elem_of_filter in Hh as [? ?].
Qed.

Lemma merge_translations_absent rowid text db :
  fetchone_by_id rowid db = None →
  db_update_translations_for_id rowid text db = db.
Proof. unfold db_update_translations_for_id. by intros ->. Qed.

(** A merge that brings a new piece rewrites the record and resets its
    flag, whatever the stored text. *)
Lemma merge_translations_writes rowid text db r :
  fetchone_by_id rowid db = Some r →
  (∃ np, np ∈ new_translation_parts text ∧
         np ∉ translation_parts (translations r)) →
  db_update_translations_for_id rowid text db ≠ db ∧
  ∀ r', r' ∈ rows (db_update_translations_for_id rowid text db) →
        id r' = rowid → anki_created r' = 0%Z.
Proof.
  intros Hr Hnew. apply merge_parts_changed in Hnew.
  pose proof (merge_added_changes_text (translations r) text Hnew) as Hdiff.
  unfold db_update_translations_for_id. rewrite Hr.
  destruct (merge_parts _ _) as [parts changed]. simpl in Hdiff.
  rewrite decide_True by done.
  apply fetchone_by_id_Some in Hr as [Hin Hid]. split.
  - intros Heq. apply (f_equal rows) in Heq. unfold update_where in Heq.
    simpl in Heq. apply list_elem_of_lookup in Hin as [i Hi].
    apply (f_equal (λ l, l !! i)) in Heq.
    rewrite list_lookup_fmap, Hi in Heq. simpl in Heq.
    rewrite decide_True in Heq by done. injection Heq as Heq.
    apply (f_equal translations) in Heq. by simpl in Heq.
  - intros r' (r0 & -> & Hr0)%list_elem_of_fmap Hid'.
    by case_decide.
Qed.

(** ** Texts made of clean pieces *)

Lemma sep3_eq : sep3 = [32; 124; 32]%N.
Proof. reflexivity. Qed.

Lemma starts_with_sep3_no_bar c q rest :
  124%N ∉ q → rest = [] ∨ (∃ t, rest = sep3 ++ t) →
  starts_with sep3 (c :: q ++ rest) = false.
Proof.
  intros Hq Hrest. rewrite sep3_eq in *. cbn [starts_with].
  destruct (32 =? c)%N; [cbn [andb] | done].
  destruct q as [|d q].
  - by destruct Hrest as [-> | [t ->]].
  - apply not_elem_of_cons in Hq as [Hd _]. cbn [app starts_with].
    by destruct (N.eqb_spec 124 d).
Qed.

Lemma split_go_piece p : ∀ cur,
  124%N ∉ p → split_go sep3 0 cur p = [cur ++ p].
Proof.
  induction p as [|c q IH]; intros cur Hp; cbn [split_go].
  - by rewrite app_nil_r.
  - apply not_elem_of_cons in Hp as [_ Hq].
    pose proof (starts_with_sep3_no_bar c q [] Hq (or_introl eq_refl)) as Hs.
    rewrite app_nil_r in Hs. rewrite Hs, IH by done.
    by rewrite <-app_assoc.
Qed.

Lemma split_go_piece_sep p t : ∀ cur,
  124%N ∉ p →
  split_go sep3 0 cur (p ++ sep3 ++ t) = (cur ++ p) :: split_go sep3 0 [] t.
Proof.
  induction p as [|c q IH]; intros cur Hp.
  - by rewrite app_nil_r.
  - apply not_elem_of_cons in Hp as [_ Hq].
    change ((c :: q) ++ sep3 ++ t) with (c :: q ++ sep3 ++ t).
    cbn [split_go].
    rewrite (starts_with_sep3_no_bar c q (sep3 ++ t) Hq) by eauto.
    rewrite IH by done. by rewrite <-app_assoc.
Qed.

Lemma split_join_no_bar l :
  l ≠ [] → Forall (λ p, 124%N ∉ p) l → split sep3 (join sep3 l) = l.
Proof.
  unfold split. induction l as [|p l IH]; [done |]. intros _ Hl.
  apply Forall_cons in Hl as [Hp Hl]. destruct l as [|q l].
  - by apply split_go_piece.
  - rewrite join_cons by done. rewrite split_go_piece_sep by done.
    simpl app. f_equal. by apply IH.
Qed.

Lemma clean_pieces_no_bar l :
  Forall clean_piece l → Forall (λ p, 124%N ∉ p) l.
Proof.
  intros Hl. eapply Forall_impl; [exact Hl |]. by intros p (_ & ? & _).
Qed.

Lemma translation_parts_join l :
  Forall clean_piece l → translation_parts (join sep3 l) = l.
Proof.
  intros Hl. unfold translation_parts. destruct (decide (l = [])) as [-> | Hne].
  - done.
  - rewrite split_join_no_bar by auto using clean_pieces_no_bar.
    clear Hne. induction Hl as [|p l [Hp _] _ IH]; [done |].
    by rewrite filter_cons_True, IH.
Qed.

Lemma clean_text_canonical e : clean_text e → canonical e.
Proof.
  intros (l & -> & Hl & _). unfold canonical.
  by rewrite translation_parts_join.
Qed.

Lemma clean_text_translations_clean e :
  clean_text e → translations_clean (translation_parts e).
Proof.
  intros (l & -> & Hl & Hnd). rewrite translation_parts_join by done.
  split.
  - intros Hin. rewrite Forall_forall in Hl. by destruct (Hl [] Hin).
  - replace (strip <$> l) with l; [done |].
    clear Hnd. induction Hl as [|p l (_ & _ & Hp) _ IH]; [done |].
    rewrite fmap_cons, Hp. by f_equal.
Qed.

Lemma merge_parts_clean new_parts : ∀ parts,
  Forall clean_piece parts → NoDup parts →
  Forall clean_piece new_parts →
  Forall clean_piece (merge_parts parts new_parts).1 ∧
  NoDup (merge_parts parts new_parts).1.
Proof.
  induction new_parts as [|np new_parts IH]; intros parts Hc Hnd Hnew;
    [done |].
  apply Forall_cons in Hnew as [Hnp Hnew]. rewrite merge_parts_cons.
  case_decide as Hin; [by apply IH |]. simpl. apply IH; [| |done].
  - apply Forall_app. split; [done |]. by constructor.
  - apply NoDup_app. split; [done |]. split; [|apply NoDup_singleton].
    intros x Hx ->%list_elem_of_singleton. done.
Qed.

Lemma new_translation_parts_clean text :
  Forall clean_piece (new_translation_parts text).
Proof.
  apply Forall_forall. intros np Hnp.
  by apply new_translation_parts_elem in Hnp.
Qed.

Lemma update_where_clean (P : Row → Prop) `{∀ r, Decision (P r)} f db :
  (∀ r, clean_text (translations (f r))) →
  clean_store db → clean_store (update_where P f db).
Proof.
  unfold clean_store, update_where. simpl. intros Hf Hdb.
  apply Forall_fmap. eapply Forall_impl; [exact Hdb |].
  intros r Hr. simpl. by case_decide.
Qed.

Lemma update_where_flag_clean (P : Row → Prop) `{∀ r, Decision (P r)} a db :
  clean_store db → clean_store (update_where P (set_anki_created a) db).
Proof.
  unfold clean_store, update_where. simpl. intros Hdb.
  apply Forall_fmap. eapply Forall_impl; [exact Hdb |].
  intros r Hr. simpl. by case_decide.
Qed.

Lemma merge_translations_clean rowid text db :
  clean_store db → clean_store (db_update_translations_for_id rowid text db).
Proof.
  intros Hdb. unfold db_update_translations_for_id.
  destruct (fetchone_by_id rowid db) as [r|] eqn:Hr; [|done].
  apply fetchone_by_id_Some in Hr as [Hin _].
  unfold clean_store in Hdb. rewrite Forall_forall in Hdb.
  destruct (Hdb r Hin) as (l & He & Hl & Hnd).
  rewrite He, translation_parts_join by done.
  destruct (merge_parts_clean (new_translation_parts text) l Hl Hnd
              (new_translation_parts_clean text)) as [Hc Hn].
  destruct (merge_parts _ _) as [parts changed]. simpl in *.
  case_decide; [|by apply Forall_forall].
  apply update_where_clean; [|by apply Forall_forall].
  intros r0. simpl. by exists parts.
Qed.

Lemma upsert_clean ts w tr db :
  tr = [] ∨ clean_piece tr →
  clean_store db → clean_store (db_add_or_update_word ts w tr db).
Proof.
  intros Htr Hdb. destruct (decide (w = [])) as [-> | Hw]; [done |].
  destruct (fetchone_by_word_cases (strip w) db)
    as [(row & Hrow & Hin & _) | [_ Hnew]].
  - rewrite (upsert_update _ _ _ _ row) by done.
    destruct (truthy tr && _) eqn:Hcond; [|done].
    apply andb_true_iff in Hcond as [Htruthy Hnotin].
    apply bool_decide_eq_true in Hnotin.
    destruct Htr as [-> | Hclean]; [done |].
    pose proof Hdb as Hdb'. unfold clean_store in Hdb'.
    rewrite Forall_forall in Hdb'.
    destruct (Hdb' row Hin) as (l & He & Hl & Hnd).
    rewrite He, translation_parts_join in Hnotin |- * by done.
    apply update_where_clean; [|done].
    intros r0. simpl. exists (l ++ [tr]). split; [done |]. split.
    + apply Forall_app. split; [done |]. by constructor.
    + apply NoDup_app. split; [done |]. split; [|apply NoDup_singleton].
      intros x Hx ->%list_elem_of_singleton. done.
  - rewrite upsert_insert by done. unfold clean_store. simpl.
    apply Forall_app. split; [done |]. constructor; [|done]. simpl.
    destruct Htr as [-> | Hclean].
    + exists []. split; [done |]. split; [done | apply NoDup_nil_2].
    + exists [tr]. split; [done |]. split; [by constructor |].
      apply NoDup_singleton.
Qed.

(** As long as [upsert] is handed clean translations, every stored text
    stays a join of distinct clean pieces. *)
Lemma run_op_clean db o :
  clean_op o → clean_store db → clean_store (run_op db o).
Proof.
  destruct o as [ts w tr | rowid text | w | | ids]; cbn [run_op clean_op];
    intros Ho Hdb.
  - by apply upsert_clean.
  - by apply merge_translations_clean.
  - by apply update_where_flag_clean.
  - by apply update_where_flag_clean.
  - destruct ids as [|i ids]; [done |]. unfold clean_store in *. simpl.
    rewrite Forall_forall in Hdb |- *.
    intros r [_ Hr]%list_elem_of_filter. by apply Hdb.
Qed.

Lemma run_ops_clean os : ∀ db,
  Forall clean_op os → clean_store db → clean_store (run_ops db os).
Proof.
  induction os as [|o os IH]; intros db Hos Hdb; [done |].
  apply Forall_cons in Hos as [Ho Hos]. simpl.
  by apply IH, run_op_clean.
Qed.

(** The invariant of the specification, for the stores built without
    handing [upsert] a translation that is blank at an end, empty between
    separators or holds a bar. *)
Lemma clean_ops_keep_invariant os :
  Forall clean_op os →
  store_translations_clean (run_ops empty_store os) ∧
  Forall (λ r, canonical (translations r)) (rows (run_ops empty_store os)).
Proof.
  intros Hos.
  assert (clean_store (run_ops empty_store os)) as Hc.
  { apply run_ops_clean; [done |]. unfold clean_store. simpl. constructor. }
  split; (eapply Forall_impl; [exact Hc |]); intros r Hr; simpl.
  - by apply clean_text_translations_clean.
  - by apply clean_text_canonical.
Qed.

(** * Further properties of the code *)

(** ** The shape of a store is kept *)

Lemma ids_of_frames (l : list Row) : id <$> l = (λ f, f.1.1) <$> (frame <$> l).
Proof. rewrite <-list_fmap_compose. by apply list_fmap_ext. Qed.

Lemma sorted_ids_filter (P : Row → Prop) `{∀ r, Decision (P r)} l :
  StronglySorted Z.lt (id <$> l) → StronglySorted Z.lt (id <$> filter P l).
Proof.
  induction l as [|r l IH]; [done |]. rewrite fmap_cons, StronglySorted_cons.
  intros [Hr Hl]. rewrite filter_cons. case_decide; [|by apply IH].
  rewrite fmap_cons. apply StronglySorted_cons. split; [|by apply IH].
  rewrite Forall_forall in Hr |- *.
  intros i (r' & -> & [_ Hin]%list_elem_of_filter)%list_elem_of_fmap.
  apply Hr. by apply list_elem_of_fmap_2.
Qed.

Lemma sorted_ids_NoDup (l : list Row) :
  StronglySorted Z.lt (id <$> l) → NoDup (id <$> l).
Proof.
  generalize (id <$> l). intros ids. induction 1 as [|i ids _ IH Hi];
    [apply NoDup_nil_2 |].
  apply NoDup_cons. split; [|done]. rewrite Forall_forall in Hi.
  intros Hin. specialize (Hi i Hin). lia.
Qed.

Lemma update_where_flags (P : Row → Prop) `{∀ r, Decision (P r)} f db :
  (∀ r, flag01 (f r)) →
  Forall flag01 (rows db) → Forall flag01 (rows (update_where P f db)).
Proof.
  intros Hf Hdb. unfold update_where. simpl. apply Forall_fmap.
  eapply Forall_impl; [exact Hdb |]. intros r Hr. simpl. by case_decide.
Qed.

Lemma run_op_flags db o :
  Forall flag01 (rows db) → Forall flag01 (rows (run_op db o)).
Proof.
  intros Hdb. destruct o as [ts w tr | rowid text | w | | ids]; cbn [run_op].
  - destruct (decide (w = [])) as [-> | Hw]; [done |].
    destruct (fetchone_by_word_cases (strip w) db)
      as [(row & Hrow & _) | [_ Hnew]].
    + rewrite (upsert_update _ _ _ _ row) by done.
      destruct (_ && _); [|done].
      apply update_where_flags; [|done]. intros r. by left.
    + rewrite upsert_insert by done. simpl. apply Forall_app.
      split; [done |]. constructor; [by left | done].
  - unfold db_update_translations_for_id.
    destruct (fetchone_by_id rowid db); [|done].
    destruct (merge_parts _ _). case_decide; [|done].
    apply update_where_flags; [|done]. intros ?. by left.
  - apply update_where_flags; [|done]. intros r. by right.
  - apply update_where_flags; [|done]. intros r. by left.
  - destruct ids as [|i ids]; [done |]. simpl.
    rewrite Forall_forall in Hdb |- *.
    intros r [_ Hr]%list_elem_of_filter. by apply Hdb.
Qed.

Lemma next_rowid_above_seq db : (seq db < next_rowid db)%Z.
Proof.
  unfold next_rowid.
  assert (∀ (l : list Z) s, (s ≤ foldr Z.max s l)%Z) as Hmax.
  { intros l s. induction l; simpl; lia. }
  pose proof (Hmax (id <$> rows db) (seq db)). lia.
Qed.

(** What an operation other than a deletion does to the rows and to the
    counter: it keeps the counter and the frame of every row, or it
    appends one row with the next rowid and moves the counter there. *)
Lemma run_op_grows db o :
  is_delete o = false →
  (frame <$> rows (run_op db o) = frame <$> rows db ∧
   seq (run_op db o) = seq db) ∨
  (∃ new, rows (run_op db o) = rows db ++ [new] ∧
          id new = next_rowid db ∧ seq (run_op db o) = next_rowid db).
Proof.
  destruct o as [ts w tr | rowid text | w | | ids]; cbn [run_op]; intros Hd.
  - destruct (decide (w = [])) as [-> | Hw]; [by left |].
    destruct (fetchone_by_word_cases (strip w) db)
      as [(row & Hrow & _) | [_ Hnew]].
    + left. rewrite (upsert_update _ _ _ _ row) by done.
      destruct (_ && _); [|done]. split; [|done]. by apply update_where_frame.
    + right. rewrite upsert_insert by done. by eexists.
  - left. split; [apply merge_translations_frame |].
    unfold db_update_translations_for_id.
    destruct (fetchone_by_id rowid db); [|done].
    destruct (merge_parts _ _). by case_decide.
  - left. split; [by apply update_where_frame | done].
  - left. split; [by apply update_where_frame | done].
  - done.
Qed.

Lemma run_op_seq db o : (seq db ≤ seq (run_op db o))%Z.
Proof.
  destruct (is_delete o) eqn:Hd.
  - destruct o as [| | | | ids]; try done. by destruct ids.
  - destruct (run_op_grows db o Hd) as [[_ ->] | (new & _ & _ & ->)];
      [done |]. pose proof (next_rowid_above_seq db). lia.
Qed.

Lemma run_op_well_formed db o : well_formed db → well_formed (run_op db o).
Proof.
  intros [Hw Ho Hs Hf]. split; [by apply run_op_unique_words | | |
                                 by apply run_op_flags].
  - destruct (is_delete o) eqn:Hd.
    + destruct o as [| | | | ids]; try done. simpl.
      destruct ids as [|i ids]; [done |]. simpl. by apply sorted_ids_filter.
    + destruct (run_op_grows db o Hd) as [[Hfr _] | (new & -> & Hid & _)].
      * by rewrite ids_of_frames, Hfr, <-ids_of_frames.
      * rewrite fmap_app. apply StronglySorted_app. split; [|split; [done |]].
        -- intros i j (r & -> & Hr)%list_elem_of_fmap ->%list_elem_of_singleton.
           rewrite Hid. by apply next_rowid_fresh.
        -- simpl. repeat constructor.
  - destruct (is_delete o) eqn:Hd.
    + destruct o as [| | | | ids]; try done. simpl in *.
      destruct ids as [|i ids]; [done |]. simpl.
      rewrite Forall_forall in Hs |- *.
      intros r [_ Hr]%list_elem_of_filter. by apply Hs.
    + assert (∀ (l : list Row) s,
                Forall (λ r, (id r ≤ s)%Z) l ↔
                Forall (λ i, (i ≤ s)%Z) (id <$> l)) as Hids.
      { intros l s. by rewrite Forall_fmap. }
      destruct (run_op_grows db o Hd) as [[Hfr ->] | (new & -> & Hid & ->)].
      * apply Hids. rewrite ids_of_frames, Hfr, <-ids_of_frames.
        by apply Hids.
      * apply Forall_app. split.
        -- rewrite Forall_forall in Hs |- *. intros r Hr.
           pose proof (next_rowid_fresh db r Hr). lia.
        -- constructor; [lia | done].
Qed.

Lemma run_ops_well_formed os : ∀ db,
  well_formed db → well_formed (run_ops db os).
Proof.
  induction os as [|o os IH]; intros db Hdb; [done |].
  simpl. by apply IH, run_op_well_formed.
Qed.

Lemma empty_store_well_formed : well_formed empty_store.
Proof. split; simpl; constructor. Qed.

(** X1: every store that the operations build from the empty table is
    well formed: the words are unique, the rows are in strictly
    increasing rowid order with no rowid above the counter, and every
    flag is 0 or 1. *)
Theorem reachable_store_well_formed (os : list op) :
  well_formed (run_ops empty_store os).
Proof. apply run_ops_well_formed, empty_store_well_formed. Qed.

(** ** Rowids are not handed out twice *)

Lemma run_op_row_origin db o r :
  r ∈ rows (run_op db o) →
  (∃ r0, r0 ∈ rows db ∧ frame r0 = frame r) ∨ (seq db < id r)%Z.
Proof.
  intros Hr. destruct (is_delete o) eqn:Hd.
  - left. exists r. split; [|done].
    destruct o as [| | | | ids]; try done. simpl in Hr.
    destruct ids as [|i ids]; [done |]. simpl in Hr.
    by apply list_elem_of_filter in Hr as [_ ?].
  - destruct (run_op_grows db o Hd) as [[Hfr _] | (new & Hrows & Hid & _)].
    + left. apply list_elem_of_lookup in Hr as [i Hi].
      assert ((frame <$> rows db) !! i = Some (frame r)) as Hi'
        by by rewrite <-Hfr, list_lookup_fmap, Hi.
      rewrite list_lookup_fmap in Hi'.
      destruct (rows db !! i) as [r0|] eqn:Hr0; [|done].
      exists r0. split; [by eapply list_elem_of_lookup_2 |].
      simpl in Hi'. congruence.
    + rewrite Hrows in Hr.
      apply elem_of_app in Hr as [Hr | ->%list_elem_of_singleton].
      * left. by exists r.
      * right. rewrite Hid. apply next_rowid_above_seq.
Qed.

Lemma run_ops_seq os : ∀ db, (seq db ≤ seq (run_ops db os))%Z.
Proof.
  induction os as [|o os IH]; intros db; [done |]. simpl.
  pose proof (run_op_seq db o). pose proof (IH (run_op db o)). lia.
Qed.

Lemma run_ops_row_origin os : ∀ db r,
  r ∈ rows (run_ops db os) →
  (∃ r0, r0 ∈ rows db ∧ frame r0 = frame r) ∨ (seq db < id r)%Z.
Proof.
  induction os as [|o os IH]; intros db r Hr.
  - left. by exists r.
  - simpl in Hr. destruct (IH _ _ Hr) as [(r1 & Hr1 & Hf1) | Hnew].
    + destruct (run_op_row_origin db o r1 Hr1) as [(r0 & Hr0 & Hf0) | Hlt].
      * left. exists r0. split; [done | congruence].
      * right. unfold frame in Hf1. injection Hf1 as Hid _ _. lia.
    + right. pose proof (run_op_seq db o). lia.
Qed.

(** X2: rowids are never reused.  After any sequence of operations on a
    well-formed store, a row is either one of the rows of before, with
    the identifier, word and creation time it had, or its identifier is
    larger than the counter and than every identifier the store held. *)
Theorem rowids_never_reused (db : Store) (os : list op) (r : Row) :
  well_formed db →
  r ∈ rows (run_ops db os) →
  (∃ r0, r0 ∈ rows db ∧ frame r0 = frame r) ∨
  ((seq db < id r)%Z ∧ Forall (λ r0, (id r0 < id r)%Z) (rows db)).
Proof.
  intros Hwf Hr. destruct (run_ops_row_origin os db r Hr) as [? | Hlt];
    [by left |].
  right. split; [done |].
  eapply Forall_impl; [apply (wf_seq _ Hwf) |]. intros r0 Hr0. simpl in *. lia.
Qed.

Lemma rowids_never_reused_witness :
  well_formed cat_store ∧
  {| id := 2; word := py "dog"; translations := py "perro";
     added_at := ts1; anki_created := 0 |}
  ∈ rows (run_ops cat_store
            [Delete [1%Z]; Upsert ts1 (py "dog") (py "perro")]) ∧
  (1 < 2)%Z.
Proof.
  assert (well_formed cat_store) as Hwf
    by apply (run_ops_well_formed [Upsert ts0 (py "cat") (py "gato")] _
                empty_store_well_formed).
  assert ({| id := 2; word := py "dog"; translations := py "perro";
             added_at := ts1; anki_created := 0 |}
          ∈ rows (run_ops cat_store
                    [Delete [1%Z]; Upsert ts1 (py "dog") (py "perro")]))
    as Hin by (vm_compute; left).
  split; [exact Hwf |]. split; [exact Hin |].
  destruct (rowids_never_reused cat_store _ _ Hwf Hin)
    as [(r0 & Hr0 & Hf) | [Hlt _]].
  - exfalso. vm_compute in Hr0. apply list_elem_of_singleton in Hr0.
    subst r0. vm_compute in Hf. discriminate.
  - exact Hlt.
Defined.

(** ** Deletion *)

Lemma filter_all {A} (P : A → Prop) `{∀ x, Decision (P x)} (l : list A) :
  Forall P l → filter P l = l.
Proof.
  induction 1 as [|x l Hx _ IH]; [done |]. by rewrite filter_cons_True, IH.
Qed.

Lemma store_eq (a b : Store) : rows a = rows b → seq a = seq b → a = b.
Proof. destruct a, b; simpl. by intros -> ->. Qed.

Lemma db_delete_words_rows ids db :
  rows (db_delete_words ids db) = filter (λ r, id r ∉ ids) (rows db).
Proof.
  destruct ids as [|i ids]; [|done]. simpl. symmetry. apply filter_all.
  apply Forall_forall. intros r _. apply not_elem_of_nil.
Qed.

Lemma db_delete_words_seq ids db : seq (db_delete_words ids db) = seq db.
Proof. by destruct ids. Qed.

Lemma db_delete_words_ext ids1 ids2 db :
  (∀ r, r ∈ rows db → id r ∈ ids1 ↔ id r ∈ ids2) →
  db_delete_words ids1 db = db_delete_words ids2 db.
Proof.
  intros Hext. apply store_eq;
    [|by rewrite !db_delete_words_seq].
  rewrite !db_delete_words_rows.
  induction (rows db) as [|r l IH]; [done |].
  rewrite !filter_cons.
  assert (id r ∈ ids1 ↔ id r ∈ ids2) as Hr by (apply Hext; left).
  rewrite IH by (intros r' Hr'; apply Hext; by right).
  destruct (decide (id r ∉ ids1)), (decide (id r ∉ ids2)); try done; tauto.
Qed.

(** X3: a deletion removes exactly the rows whose identifier is listed
    and keeps the others as they are.  Only the set of identifiers
    counts: their order does not, identifiers that no row carries are
    ignored, deleting in two steps or at once gives the same store, and
    deleting again changes nothing. *)
Theorem delete_depends_on_id_set (ids1 ids2 : list Z) (db : Store) :
  (∀ r, r ∈ rows (db_delete_words ids1 db) ↔ r ∈ rows db ∧ id r ∉ ids1) ∧
  db_delete_words (ids1 ++ ids2) db
  = db_delete_words ids2 (db_delete_words ids1 db) ∧
  db_delete_words (ids2 ++ ids1) db = db_delete_words (ids1 ++ ids2) db ∧
  db_delete_words ids1 (db_delete_words ids1 db) = db_delete_words ids1 db ∧
  db_delete_words ids1 db
  = db_delete_words (filter (λ i, i ∈ (id <$> rows db)) ids1) db.
Proof.
  split; [|split; [|split; [|split]]].
  - intros r. rewrite db_delete_words_rows, list_elem_of_filter. tauto.
  - apply store_eq; [|by rewrite !db_delete_words_seq].
    rewrite !db_delete_words_rows, list_filter_filter.
    apply list_filter_iff. intros r. rewrite elem_of_app. tauto.
  - apply db_delete_words_ext. intros r _. rewrite !elem_of_app. tauto.
  - apply store_eq; [|by rewrite !db_delete_words_seq].
    rewrite !db_delete_words_rows, list_filter_filter.
    apply list_filter_iff. tauto.
  - apply db_delete_words_ext. intros r Hr. rewrite list_elem_of_filter.
    split; [|tauto]. intros Hin. split; [|done].
    by apply list_elem_of_fmap_2.
Qed.

(** ** Export flags *)

Lemma mark_rows w db :
  rows (db_set_anki_created_for_word w db) =
  (λ r, if decide (word r = w) then set_anki_created 1 r else r) <$> rows db.
Proof. done. Qed.



Lemma reset_rows db :
  rows (db_reset_anki_flags db) = set_anki_created 0 <$> rows db.
Proof.
  unfold db_reset_anki_flags, update_where. simpl. by apply list_fmap_ext.
Qed.

(** X5: after a reset of the flags every record is unexported, whatever
    was exported before: the exported count is 0, the total count is the
    same, the export selects from all the rows; identifiers, words,
    translations and creation times are untouched, and a reset undoes
    every earlier mark. *)
Theorem reset_makes_all_unexported (w : pystr) (db : Store) :
  let db' := db_reset_anki_flags db in
  unexported db' = rows db' ∧
  db_get_stats db' = (length (rows db), 0) ∧
  (λ r, (frame r, translations r)) <$> rows db'
  = (λ r, (frame r, translations r)) <$> rows db ∧
  db_reset_anki_flags (db_set_anki_created_for_word w db) = db' ∧
  db_reset_anki_flags db' = db'.
Proof.
  intros db'.
  assert (Forall (λ r, anki_created r = 0%Z) (rows db')) as Hzero.
  { unfold db'. rewrite reset_rows. apply Forall_fmap, Forall_forall.
    by intros r _. }
  split; [by apply filter_all |]. split; [|split; [|split]].
  - unfold db_get_stats. f_equal.
    + unfold db'. by rewrite reset_rows, length_fmap.
    + replace (filter _ (rows db')) with (@nil Row); [done |].
      symmetry. induction Hzero as [|r l Hr _ IH]; [done |].
      rewrite filter_cons_False by (rewrite Hr; lia). done.
  - unfold db'. rewrite reset_rows, <-list_fmap_compose.
    by apply list_fmap_ext.
  - apply store_eq; [|done]. unfold db'. rewrite !reset_rows, mark_rows.
    rewrite <-list_fmap_compose. apply list_fmap_ext. intros i r _. simpl.
    by case_decide.
  - apply store_eq; [|done]. unfold db'. rewrite !reset_rows.
    rewrite <-list_fmap_compose. by apply list_fmap_ext.
Qed.

(** ** Counts *)

Lemma stats_split_rows (l : list Row) :
  Forall flag01 l →
  length l = length (filter (λ r, anki_created r = 1%Z) l) +
             length (filter (λ r, anki_created r = 0%Z) l).
Proof.
  induction 1 as [|r l [Hr | Hr] _ IH]; [done | |]; rewrite !filter_cons.
  - rewrite decide_False, decide_True by (rewrite ?Hr; done). simpl. lia.
  - rewrite decide_True, decide_False by (rewrite ?Hr; done). simpl. lia.
Qed.

Lemma export_anki_rows limit path db :
  path ≠ [] →
  rows (export_anki limit path db).1 =
  (λ r, if decide (word r ∈ (select_for_export limit db).*1)
        then set_anki_created 1 r else r) <$> rows db.
Proof. intros Hp. by rewrite export_anki_store, mark_selected_rows. Qed.

(** X6: in a store with unique words and flags 0 or 1, the total count
    of the statistics is the exported count plus the number of
    unexported records, and a successful export of [limit] records
    moves as many records as it could select from the unexported to the
    exported count, leaving the total as it is. *)
Theorem stats_follow_export (db : Store) (limit : Z) (path : pystr) :
  NoDup (word <$> rows db) → Forall flag01 (rows db) →
  (0 ≤ limit)%Z → path ≠ [] →
  let n := Z.to_nat limit `min` length (unexported db) in
  (db_get_stats db).1 = (db_get_stats db).2 + length (unexported db) ∧
  length (select_for_export limit db) = n ∧
  db_get_stats (export_anki limit path db).1
  = ((db_get_stats db).1, (db_get_stats db).2 + n).
Proof.
  intros Hnd Hfl Hl Hp n. set (db' := (export_anki limit path db).1).
  assert (length (rows db') = length (rows db)) as Hlen.
  { unfold db'. by rewrite export_anki_rows, length_fmap. }
  assert (Forall flag01 (rows db')) as Hfl'.
  { unfold db'. rewrite export_anki_rows by done. apply Forall_fmap.
    eapply Forall_impl; [exact Hfl |]. intros r Hr. simpl.
    case_decide; [by right | done]. }
  pose proof (stats_split_rows _ Hfl) as H1.
  pose proof (stats_split_rows _ Hfl') as H2.
  assert (length (unexported db') = length (unexported db) - Z.to_nat limit)
    as Hun.
  { unfold db'. by rewrite unexported_after_export, length_drop. }
  fold (unexported db) in H1. fold (unexported db') in H2.
  split; [done |]. split.
  - unfold select_for_export. rewrite length_fmap, select_rows_take by done.
    by rewrite length_take.
  - unfold db_get_stats. simpl. f_equal; [done |]. unfold n. lia.
Qed.

Lemma stats_follow_export_witness :
  NoDup (word <$> rows farm_store) ∧ Forall flag01 (rows farm_store) ∧
  (0 ≤ 3)%Z ∧ py "cards.csv" ≠ [] ∧
  db_get_stats farm_store = (8, 3) ∧
  db_get_stats (export_anki 3 (py "cards.csv") farm_store).1 = (8, 6).
Proof.
  assert (well_formed farm_store) as [Hnd _ _ Hfl]
    by apply run_ops_well_formed, empty_store_well_formed.
  assert ((0 ≤ 3)%Z) as Hl by lia.
  assert (py "cards.csv" ≠ []) as Hp by done.
  split; [exact Hnd |]. split; [exact Hfl |]. split; [exact Hl |].
  split; [exact Hp |]. split; [by vm_compute |].
  destruct (stats_follow_export farm_store 3 (py "cards.csv") Hnd Hfl Hl Hp)
    as (_ & _ & ->). by vm_compute.
Defined.

(** ** Listing *)

Global Instance nocase_le_total : Total nocase_le.
Proof. intros a b. apply (total str_le). Qed.

Global Instance nocase_le_trans : Transitive nocase_le.
Proof. intros a b c. apply (transitivity (R := str_le)). Qed.


(** ** Looking up what an upsert stored *)

Lemma filter_fmap_keep {A} (P : A → Prop) `{∀ x, Decision (P x)}
    (g : A → A) (l : list A) :
  (∀ x, P (g x) ↔ P x) → filter P (g <$> l) = g <$> filter P l.
Proof.
  intros Hg. induction l as [|x l IH]; [done |].
  rewrite fmap_cons, !filter_cons, IH.
  destruct (decide (P x)) as [Hx | Hx].
  - by rewrite decide_True by by apply Hg.
  - by rewrite decide_False by by rewrite Hg.
Qed.

Lemma fetchone_by_word_update k (P : Row → Prop) `{∀ r, Decision (P r)} f db :
  (∀ r, word (f r) = word r) →
  fetchone_by_word k (update_where P f db) =
  (λ r, if decide (P r) then f r else r) <$> fetchone_by_word k db.
Proof.
  intros Hf. unfold fetchone_by_word, update_where. simpl.
  rewrite filter_fmap_keep.
  - by destruct (filter _ (rows db)).
  - intros r. simpl. case_decide; [by rewrite Hf | done].
Qed.

Lemma fetchone_by_id_update k (P : Row → Prop) `{∀ r, Decision (P r)} f db :
  (∀ r, id (f r) = id r) →
  fetchone_by_id k (update_where P f db) =
  (λ r, if decide (P r) then f r else r) <$> fetchone_by_id k db.
Proof.
  intros Hf. unfold fetchone_by_id, update_where. simpl.
  rewrite filter_fmap_keep.
  - by destruct (filter _ (rows db)).
  - intros r. simpl. case_decide; [by rewrite Hf | done].
Qed.

Lemma upsert_keeps_words ts w tr db w' :
  w' ∈ (word <$> rows db) →
  w' ∈ (word <$> rows (db_add_or_update_word ts w tr db)).
Proof.
  intros Hw'. destruct (upsert_frame ts w tr db) as [Hf | [_ ->]].
  - by rewrite words_of_frames, Hf, <-words_of_frames.
  - rewrite fmap_app. apply elem_of_app. by left.
Qed.

(** X8: after an upsert with a word that is not empty, the trimmed word
    is found in the table; a word that was not there gets a new row with
    the translation as given, the time of the call and flag 0, and no
    word that was in the table is lost. *)
Theorem upsert_then_lookup (ts w tr : pystr) (db : Store) :
  w ≠ [] →
  let db' := db_add_or_update_word ts w tr db in
  (∃ row, fetchone_by_word (strip w) db' = Some row ∧ word row = strip w) ∧
  (strip w ∉ (word <$> rows db) →
   fetchone_by_word (strip w) db'
   = Some {| id := next_rowid db; word := strip w; translations := tr;
             added_at := ts; anki_created := 0 |}) ∧
  (∀ w', w' ∈ (word <$> rows db) → w' ∈ (word <$> rows db')).
Proof.
  intros Hw db'.
  assert (strip w ∉ (word <$> rows db) →
          fetchone_by_word (strip w) db'
          = Some {| id := next_rowid db; word := strip w; translations := tr;
                    added_at := ts; anki_created := 0 |}) as Hnew.
  { intros Hnew. unfold db'. rewrite upsert_insert by done.
    by apply fetchone_by_word_last. }
  split; [|split; [done | intros w'; apply upsert_keeps_words]].
  destruct (fetchone_by_word_cases (strip w) db)
    as [(row & Hrow & _ & Hword) | [_ Habs]].
  - unfold db'. rewrite (upsert_update _ _ _ _ row) by done.
    destruct (_ && _); [|by exists row].
    rewrite fetchone_by_word_update, Hrow by done. simpl.
    eexists. split; [done |]. by case_decide.
  - rewrite Hnew by done. by eexists.
Qed.

Lemma upsert_then_lookup_witness :
  py " dog " ≠ [] ∧
  fetchone_by_word (py "dog")
    (db_add_or_update_word ts1 (py " dog ") (py "perro") cat_store)
  = Some {| id := 2; word := py "dog"; translations := py "perro";
            added_at := ts1; anki_created := 0 |}.
Proof.
  assert (py " dog " ≠ []) as Hw by done.
  split; [exact Hw |].
  destruct (upsert_then_lookup ts1 (py " dog ") (py "perro") cat_store Hw)
    as (_ & Hnew & _).
  assert (strip (py " dog ") ∉ (word <$> rows cat_store)) as Habs.
  { apply (bool_decide_unpack _). by vm_compute. }
  exact (Hnew Habs).
Defined.

(** ** Upserting the same translation again *)

Lemma translation_parts_clean_piece tr :
  clean_piece tr → translation_parts tr = [tr].
Proof.
  intros Hc. change tr with (join sep3 [tr]) at 1.
  apply translation_parts_join. by constructor.
Qed.

(** X9: on a store whose texts are joins of clean pieces, an upsert with
    no translation or with a clean one (trimmed, not empty, without a
    bar) is idempotent: repeating it, at any later time, changes
    nothing. *)
Theorem upsert_twice_is_once (t1 t2 w tr : pystr) (db : Store) :
  clean_store db → tr = [] ∨ clean_piece tr →
  db_add_or_update_word t2 w tr (db_add_or_update_word t1 w tr db)
  = db_add_or_update_word t1 w tr db.
Proof.
  intros Hdb Htr. destruct (decide (w = [])) as [-> | Hw]; [done |].
  destruct (fetchone_by_word_cases (strip w) db)
    as [(row & Hrow & Hin & Hword) | [_ Habs]].
  - rewrite (upsert_update t1 _ _ _ row) by done.
    destruct (truthy tr && _) eqn:Hcond.
    + apply andb_true_iff in Hcond as [Htruthy Hnotin].
      destruct Htr as [-> | Hclean]; [done |].
      unfold clean_store in Hdb. rewrite Forall_forall in Hdb.
      destruct (Hdb row Hin) as (l & He & Hl & Hnd).
      rewrite (upsert_update t2 _ _ _
                 (set_anki_created 0
                    (set_translations
                       (join sep3 (translation_parts (translations row)
                                     ++ [tr])) row))).
      * simpl. rewrite He, (translation_parts_join l) by done.
        rewrite translation_parts_join
          by (apply Forall_app; split; [done | by constructor]).
        rewrite bool_decide_eq_false_2, andb_false_r; [done |].
        intros Hn. apply Hn, elem_of_app. right. left.
      * done.
      * rewrite fetchone_by_word_update, Hrow by done. simpl.
        by rewrite decide_True.
    + rewrite (upsert_update t2 _ _ _ row) by done. by rewrite Hcond.
  - rewrite (upsert_insert t1) by done.
    rewrite (upsert_update t2 _ _ _
               {| id := next_rowid db; word := strip w; translations := tr;
                  added_at := t1; anki_created := 0 |});
      [| done | by apply fetchone_by_word_last].
    simpl. destruct Htr as [-> | Hclean]; [done |].
    rewrite translation_parts_clean_piece by done.
    rewrite bool_decide_eq_false_2, andb_false_r; [done |].
    intros Hn. apply Hn. left.
Qed.

Lemma clean_piece_decide (p : pystr) :
  bool_decide (p ≠ [] ∧ (124%N ∉ p) ∧ strip p = p) = true → clean_piece p.
Proof. intros H. by apply bool_decide_eq_true in H. Qed.

Lemma upsert_twice_is_once_witness :
  clean_store cat_store ∧ (py "felino" = [] ∨ clean_piece (py "felino")) ∧
  db_add_or_update_word ts1 (py "cat") (py "felino")
    (db_add_or_update_word ts0 (py "cat") (py "felino") cat_store)
  = db_add_or_update_word ts0 (py "cat") (py "felino") cat_store.
Proof.
  assert (clean_piece (py "gato")) as Hgato
    by (apply clean_piece_decide; by vm_compute).
  assert (clean_piece (py "felino")) as Hfelino
    by (apply clean_piece_decide; by vm_compute).
  assert (clean_store cat_store) as Hc.
  { apply (run_ops_clean [Upsert ts0 (py "cat") (py "gato")] empty_store).
    - constructor; [by right | constructor].
    - constructor. }
  split; [exact Hc |]. split; [by right |].
  exact (upsert_twice_is_once ts0 ts1 (py "cat") (py "felino") cat_store Hc
           (or_intror Hfelino)).
Defined.

(** ** Merging the same text again *)

Lemma merge_translations_unfold rowid text db r :
  fetchone_by_id rowid db = Some r →
  db_update_translations_for_id rowid text db =
  let parts := (merge_parts (translation_parts (translations r))
                  (new_translation_parts text)).1 in
  if decide (join sep3 parts ≠ translations r) then
    update_where (λ r, id r = rowid)
      (λ r, set_anki_created 0 (set_translations (join sep3 parts) r)) db
  else db.
Proof.
  intros Hr. unfold db_update_translations_for_id. rewrite Hr.
  by destruct (merge_parts _ _).
Qed.

Lemma merge_parts_contains new_parts : ∀ parts x,
  x ∈ parts ∨ x ∈ new_parts → x ∈ (merge_parts parts new_parts).1.
Proof.
  induction new_parts as [|np new_parts IH]; intros parts x.
  - intros [? | Hx]; [done | by inv Hx].
  - rewrite merge_parts_cons. intros Hx. case_decide as Hin.
    + apply IH. destruct Hx as [? | [-> | ?]%elem_of_cons]; auto.
    + simpl. apply IH. rewrite elem_of_app, list_elem_of_singleton.
      destruct Hx as [? | [-> | ?]%elem_of_cons]; auto.
Qed.

(** X10: on a store whose texts are joins of clean pieces, merging a
    text into a record is idempotent: saving the same text a second time
    leaves the store, and so the export flag, as the first save left
    them. *)
Theorem merge_twice_is_once (rowid : Z) (text : pystr) (db : Store) :
  clean_store db →
  db_update_translations_for_id rowid text
    (db_update_translations_for_id rowid text db)
  = db_update_translations_for_id rowid text db.
Proof.
  intros Hdb.
  destruct (fetchone_by_id rowid db) as [r|] eqn:Hr;
    [|by rewrite !(merge_translations_absent rowid text db Hr)].
  pose proof Hr as [Hin Hid]%fetchone_by_id_Some.
  unfold clean_store in Hdb. rewrite Forall_forall in Hdb.
  destruct (Hdb r Hin) as (l & He & Hl & Hnd).
  rewrite (merge_translations_unfold rowid text db r Hr). cbv zeta.
  rewrite He, translation_parts_join by done.
  destruct (merge_parts_clean (new_translation_parts text) l Hl Hnd
              (new_translation_parts_clean text)) as [Hc Hn].
  set (parts := (merge_parts l (new_translation_parts text)).1) in *.
  case_decide as Hne.
  - apply (merge_translations_noop _ _ _
             (set_anki_created 0 (set_translations (join sep3 parts) r))).
    + rewrite fetchone_by_id_update, Hr by done. simpl.
      by rewrite decide_True.
    + simpl. apply clean_text_canonical. by exists parts.
    + intros np Hnp. simpl. rewrite translation_parts_join by done.
      apply merge_parts_contains. by right.
  - rewrite (merge_translations_unfold rowid text db r Hr). cbv zeta.
    rewrite He, translation_parts_join by done. fold parts.
    by rewrite decide_False by (by intros ?).
Qed.

Lemma merge_twice_is_once_witness :
  clean_store cat_store ∧
  db_update_translations_for_id 1 (py "felino | gato")
    (db_update_translations_for_id 1 (py "felino | gato") cat_store)
  = db_update_translations_for_id 1 (py "felino | gato") cat_store.
Proof.
  assert (clean_store cat_store) as Hc.
  { apply (run_ops_clean [Upsert ts0 (py "cat") (py "gato")] empty_store).
    - constructor; [|constructor]. right.
      apply clean_piece_decide. by vm_compute.
    - constructor. }
  split; [exact Hc |].
  exact (merge_twice_is_once 1 (py "felino | gato") cat_store Hc).
Defined.

(** X11: whatever text a record holds, a merge that brings a piece the
    record lacks rewrites the record and sets its flag to 0: the test
    of the stored against the joined text never misses an added
    piece. *)
Theorem merge_new_piece_resets_flag (rowid : Z) (text : pystr) (db : Store)
    (r : Row) :
  fetchone_by_id rowid db = Some r →
  (∃ np, np ∈ new_translation_parts text ∧
         np ∉ translation_parts (translations r)) →
  db_update_translations_for_id rowid text db ≠ db ∧
  ∀ r', r' ∈ rows (db_update_translations_for_id rowid text db) →
        id r' = rowid → anki_created r' = 0%Z.
Proof.
  intros Hr Hnew. apply merge_parts_changed in Hnew.
  pose proof (merge_added_changes_text (translations r) text Hnew) as Hdiff.
  rewrite (merge_translations_unfold rowid text db r Hr). cbv zeta.
  rewrite decide_True by done.
  apply fetchone_by_id_Some in Hr as [Hin Hid]. split.
  - intros Heq. apply (f_equal rows) in Heq. unfold update_where in Heq.
    simpl in Heq. apply list_elem_of_lookup in Hin as [i Hi].
    apply (f_equal (λ l, l !! i)) in Heq.
    rewrite list_lookup_fmap, Hi in Heq. simpl in Heq.
    rewrite decide_True in Heq by done. injection Heq as Heq.
    apply (f_equal translations) in Heq. by simpl in Heq.
  - intros r' (r0 & -> & Hr0)%list_elem_of_fmap Hid'. by case_decide.
Qed.

Lemma merge_new_piece_resets_flag_witness :
  fetchone_by_id 1 (db_set_anki_created_for_word (py "cat") cat_store)
  = Some {| id := 1; word := py "cat"; translations := py "gato";
            added_at := ts0; anki_created := 1 |} ∧
  rows (db_update_translations_for_id 1 (py " felino ")
          (db_set_anki_created_for_word (py "cat") cat_store))
  = [ {| id := 1; word := py "cat"; translations := py "gato | felino";
         added_at := ts0; anki_created := 0 |} ] ∧
  db_update_translations_for_id 1 (py " felino ")
    (db_set_anki_created_for_word (py "cat") cat_store)
  ≠ db_set_anki_created_for_word (py "cat") cat_store.
Proof.
  assert (fetchone_by_id 1 (db_set_anki_created_for_word (py "cat") cat_store)
          = Some {| id := 1; word := py "cat"; translations := py "gato";
                    added_at := ts0; anki_created := 1 |}) as Hr
    by by vm_compute.
  split; [exact Hr |]. split; [by vm_compute |].
  apply (merge_new_piece_resets_flag 1 (py " felino ") _ _ Hr).
  exists (py "felino"). split.
  - apply (bool_decide_unpack _). by vm_compute.
  - apply (bool_decide_unpack _). by vm_compute.
Defined.

(** ** The column [translations] as an encoding of a list *)

(** X12: the text of the column decodes to the list it was joined from
    whenever the pieces are clean (trimmed, not empty, without a bar),
    and joining the pieces of any text on the separator gives the text
    back. *)
Theorem translations_round_trip (l : list pystr) (e : pystr) :
  Forall clean_piece l →
  translation_parts (join sep3 l) = l ∧
  split sep3 (join sep3 l) = (if decide (l = []) then [[]] else l) ∧
  join sep3 (split sep3 e) = e.
Proof.
  intros Hl. split; [by apply translation_parts_join |]. split.
  - case_decide as Hne; [by subst |].
    apply split_join_no_bar; [done | by apply clean_pieces_no_bar].
  - by apply join_split.
Qed.

Lemma translations_round_trip_witness :
  Forall clean_piece [py "gato"; py "felino"; py "el gato"] ∧
  join sep3 [py "gato"; py "felino"; py "el gato"]
  = py "gato | felino | el gato" ∧
  translation_parts (py "gato | felino | el gato")
  = [py "gato"; py "felino"; py "el gato"].
Proof.
  assert (Forall clean_piece [py "gato"; py "felino"; py "el gato"]) as Hl
    by (repeat constructor; apply clean_piece_decide; by vm_compute).
  split; [exact Hl |]. split; [by vm_compute |].
  exact (proj1 (translations_round_trip _ [] Hl)).
Defined.

(** X13: as long as [upsert] is handed no translation or a clean one,
    every sequence of operations from the empty table leaves in every
    record a translation list without empty entry and without two
    entries equal after trimming, stored as the join of that list. *)
Theorem clean_upserts_keep_translations_clean (os : list op) :
  Forall clean_op os →
  store_translations_clean (run_ops empty_store os) ∧
  Forall (λ r, canonical (translations r)) (rows (run_ops empty_store os)).
Proof.
  intros Hos.
  assert (clean_store (run_ops empty_store os)) as Hc.
  { apply run_ops_clean; [done |]. unfold clean_store. simpl. constructor. }
  split; (eapply Forall_impl; [exact Hc |]); intros r Hr; simpl.
  - by apply clean_text_translations_clean.
  - by apply clean_text_canonical.
Qed.

Lemma clean_upserts_keep_translations_clean_witness :
  Forall clean_op
    [Upsert ts0 (py "cat") (py "gato");
     MergeTranslations 1 (py " felino | gato || minino ");
     Upsert ts1 (py "cat") (py "felino"); MarkExported (py "cat")] ∧
  (λ r, translation_parts (translations r)) <$>
    rows (run_ops empty_store
            [Upsert ts0 (py "cat") (py "gato");
             MergeTranslations 1 (py " felino | gato || minino ");
             Upsert ts1 (py "cat") (py "felino"); MarkExported (py "cat")])
  = [[py "gato"; py "felino"; py "minino"]] ∧
  store_translations_clean
    (run_ops empty_store
       [Upsert ts0 (py "cat") (py "gato");
        MergeTranslations 1 (py " felino | gato || minino ");
        Upsert ts1 (py "cat") (py "felino"); MarkExported (py "cat")]).
Proof.
  assert (Forall clean_op
            [Upsert ts0 (py "cat") (py "gato");
             MergeTranslations 1 (py " felino | gato || minino ");
             Upsert ts1 (py "cat") (py "felino"); MarkExported (py "cat")])
    as Hos.
  { repeat apply Forall_cons_2; try apply Forall_nil_2; try exact I;
      right; apply clean_piece_decide; by vm_compute. }
  split; [exact Hos |]. split; [by vm_compute |].
  exact (proj1 (clean_upserts_keep_translations_clean _ Hos)).
Defined.

(** ** Translations are only added *)

Lemma NoDup_fmap_eq {A B} (f : A → B) (l : list A) x y :
  NoDup (f <$> l) → x ∈ l → y ∈ l → f x = f y → x = y.
Proof.
  induction l as [|a l IH]; [intros _ Hx; by inv Hx |].
  rewrite fmap_cons, NoDup_cons. intros [Ha Hnd] Hx Hy Hf.
  apply elem_of_cons in Hx as [-> | Hx];
    apply elem_of_cons in Hy as [-> | Hy].
  - done.
  - destruct Ha. rewrite Hf. by apply list_elem_of_fmap_2.
  - destruct Ha. rewrite <-Hf. by apply list_elem_of_fmap_2.
  - by apply IH.
Qed.

Lemma update_where_grow (P : Row → Prop) `{∀ r, Decision (P r)} f db i r :
  rows db !! i = Some r →
  (P r → frame (f r) = frame r ∧
         translation_parts (translations r) `prefix_of`
         translation_parts (translations (f r))) →
  ∃ r', rows (update_where P f db) !! i = Some r' ∧ frame r' = frame r ∧
        translation_parts (translations r) `prefix_of`
        translation_parts (translations r').
Proof.
  intros Hi Hf. unfold update_where. simpl. rewrite list_lookup_fmap, Hi.
  simpl. eexists. split; [done |]. case_decide; [by apply Hf | done].
Qed.

Lemma run_op_translations_grow db o i r :
  well_formed db → clean_store db → clean_op o → is_delete o = false →
  rows db !! i = Some r →
  ∃ r', rows (run_op db o) !! i = Some r' ∧ frame r' = frame r ∧
        translation_parts (translations r) `prefix_of`
        translation_parts (translations r').
Proof.
  intros Hwf Hc Ho Hd Hi.
  assert (r ∈ rows db) as Hr by by eapply list_elem_of_lookup_2.
  unfold clean_store in Hc. rewrite Forall_forall in Hc.
  destruct (Hc r Hr) as (l & He & Hl & Hnd).
  destruct o as [ts w tr | rowid text | w | | ids]; cbn [run_op]; [| | | |done].
  - destruct (decide (w = [])) as [-> | Hw]; [by exists r |].
    destruct (fetchone_by_word_cases (strip w) db)
      as [(row & Hrow & Hin & Hword) | [_ Hnew]].
    + rewrite (upsert_update _ _ _ _ row) by done.
      destruct (truthy tr && _) eqn:Hcond; [|by exists r].
      apply andb_true_iff in Hcond as [Htr _].
      apply update_where_grow; [done |]. intros Hk. split; [done |].
      assert (r = row) as <-.
      { apply (NoDup_fmap_eq word (rows db)); [apply Hwf | done | done |].
        by rewrite Hword. }
      simpl. rewrite He, (translation_parts_join l) by done.
      rewrite translation_parts_join; [by exists [tr] |].
      apply Forall_app. split; [done |]. constructor; [|done].
      by destruct Ho as [-> | ?].
    + rewrite upsert_insert by done. simpl. exists r.
      rewrite lookup_app_l by by eapply lookup_lt_Some. done.
  - destruct (fetchone_by_id rowid db) as [r0|] eqn:Hr0;
      [|rewrite merge_translations_absent by done; by exists r].
    rewrite (merge_translations_unfold rowid text db r0 Hr0). cbv zeta.
    case_decide; [|by exists r].
    apply update_where_grow; [done |]. intros Hk. split; [done |].
    apply fetchone_by_id_Some in Hr0 as [Hin0 Hid0].
    assert (r = r0) as <-.
    { apply (NoDup_fmap_eq id (rows db));
        [apply sorted_ids_NoDup, Hwf | done | done | congruence]. }
    simpl. rewrite He, (translation_parts_join l) by done.
    destruct (merge_parts_clean (new_translation_parts text) l Hl Hnd
                (new_translation_parts_clean text)) as [Hcl _].
    rewrite translation_parts_join by done.
    destruct (merge_parts_added (new_translation_parts text) l)
      as (added & -> & _). by exists added.
  - apply update_where_grow; [done |]. by intros _.
  - apply update_where_grow; [done |]. by intros _.
Qed.

(** X14: translations are only ever added.  On a well-formed store
    whose texts are joins of clean pieces, whatever upserts (with no or
    a clean translation), merges, marks and resets follow, a record
    stays at its place with its identifier, word and creation time, and
    its translation list of before is a prefix of its list afterwards:
    no entry is removed, changed or moved. *)
Theorem translations_only_grow (db : Store) (os : list op) (i : nat)
    (r : Row) :
  well_formed db → clean_store db →
  Forall clean_op os → Forall (λ o, is_delete o = false) os →
  rows db !! i = Some r →
  ∃ r', rows (run_ops db os) !! i = Some r' ∧ frame r' = frame r ∧
        translation_parts (translations r) `prefix_of`
        translation_parts (translations r').
Proof.
  revert db r. induction os as [|o os IH]; intros db r Hwf Hc Hos Hnd Hi.
  - by exists r.
  - apply Forall_cons in Hos as [Ho Hos].
    apply Forall_cons in Hnd as [Hd Hnd].
    destruct (run_op_translations_grow db o i r)
      as (r1 & H1 & Hf1 & Hp1); try done.
    destruct (IH (run_op db o) r1) as (r' & H' & Hf' & Hp'); try done.
    + by apply run_op_well_formed.
    + by apply run_op_clean.
    + exists r'. simpl. split; [done |]. split; [congruence | by etrans].
Qed.

Lemma translations_only_grow_witness :
  well_formed cat_store ∧ clean_store cat_store ∧
  rows cat_store !! 0%nat
  = Some {| id := 1; word := py "cat"; translations := py "gato";
            added_at := ts0; anki_created := 0 |} ∧
  (translation_parts ∘ translations) <$>
    rows (run_ops cat_store
            [MergeTranslations 1 (py " felino "); MarkExported (py "cat");
             Upsert ts1 (py "cat") (py "minino"); ResetAllExportFlags;
             MergeTranslations 1 []])
  = [[py "gato"; py "felino"; py "minino"]] ∧
  ∃ r', rows (run_ops cat_store
                [MergeTranslations 1 (py " felino "); MarkExported (py "cat");
                 Upsert ts1 (py "cat") (py "minino"); ResetAllExportFlags;
                 MergeTranslations 1 []]) !! 0%nat = Some r' ∧
        frame r' = frame {| id := 1; word := py "cat";
                            translations := py "gato"; added_at := ts0;
                            anki_created := 0 |} ∧
        translation_parts
          (translations {| id := 1; word := py "cat";
                           translations := py "gato"; added_at := ts0;
                           anki_created := 0 |})
        `prefix_of` translation_parts (translations r').
Proof.
  assert (well_formed cat_store) as Hwf
    by apply (run_ops_well_formed [Upsert ts0 (py "cat") (py "gato")] _
                empty_store_well_formed).
  assert (clean_store cat_store) as Hc.
  { apply (run_ops_clean [Upsert ts0 (py "cat") (py "gato")] empty_store).
    - constructor; [|constructor]. right.
      apply clean_piece_decide. by vm_compute.
    - constructor. }
  split; [exact Hwf |]. split; [exact Hc |]. split; [reflexivity |].
  split; [by vm_compute |].
  apply (translations_only_grow cat_store _ 0%nat
           {| id := 1; word := py "cat"; translations := py "gato";
              added_at := ts0; anki_created := 0 |} Hwf Hc).
  - repeat apply Forall_cons_2; try apply Forall_nil_2; try exact I.
    right. apply clean_piece_decide. by vm_compute.
  - repeat apply Forall_cons_2; try apply Forall_nil_2; reflexivity.
  - reflexivity.
Defined.

(** ** A translation that arrives *)



(** ** Import of a JSON list *)

Lemma upsert_words ts w tr db w' :
  w' ∈ (word <$> rows (db_add_or_update_word ts w tr db)) ↔
  w' ∈ (word <$> rows db) ∨ (w ≠ [] ∧ w' = strip w).
Proof.
  destruct (decide (w = [])) as [-> | Hw].
  { rewrite upsert_empty_word. split; [auto |]. by intros [? | [? _]]. }
  destruct (fetchone_by_word_cases (strip w) db)
    as [(row & Hrow & Hin & Hword) | [_ Hnew]].
  - assert (strip w ∈ (word <$> rows db)) as Hel
      by (rewrite <-Hword; by apply list_elem_of_fmap_2).
    destruct (upsert_frame ts w tr db) as [Hf | [? _]]; [|done].
    rewrite (words_of_frames (rows (db_add_or_update_word _ _ _ _))), Hf,
      <-words_of_frames.
    split; [auto |]. by intros [? | [_ ->]].
  - rewrite upsert_insert by done. simpl.
    rewrite fmap_app, elem_of_app. cbn [fmap list_fmap word].
    rewrite list_elem_of_singleton.
    split; [intros [? | ->]; auto | intros [? | [_ ->]]; auto].
Qed.

Lemma import_items_app clock items1 rest : ∀ n db,
  import_items clock n (items1 ++ rest) n db =
  match import_items clock n items1 n db with
  | (db1, Some c) => import_items clock c rest c db1
  | (db1, None) => (db1, None)
  end.
Proof.
  induction items1 as [|it items1 IH]; intros n db; [done |].
  destruct it as [[w0|] [[tr0|]|] |]; cbn [app import_items]; try done;
    destruct (truthy (strip w0)); apply IH.
Qed.

Lemma import_items_bad clock bad rest n db :
  well_typed bad = false → import_items clock n (bad :: rest) n db = (db, None).
Proof. by destruct bad as [[w0|] [[tr0|]|] |]. Qed.

Lemma omap_entry_word_cons it items :
  omap entry_word (it :: items) =
  match entry_word it with
  | Some w => w :: omap entry_word items
  | None => omap entry_word items
  end.
Proof. done. Qed.

Lemma import_items_ok clock items : ∀ n db,
  Forall (λ it, well_typed it = true) items →
  (import_items clock n items n db).2
  = Some (n + length (omap entry_word items)) ∧
  ∀ w, w ∈ (word <$> rows (import_items clock n items n db).1) ↔
       w ∈ (word <$> rows db) ∨ w ∈ omap entry_word items.
Proof.
  induction items as [|it items IH]; intros n db Hall.
  { split; [simpl; f_equal; lia |]. intros w. simpl. split; [auto |].
    intros [? | H]; [done | by inv H]. }
  apply Forall_cons in Hall as [Hit Hall]. rewrite omap_entry_word_cons.
  assert (∀ w0 tr,
    (import_items clock n (Entry (JString w0) None :: items) n db =
     if truthy (strip w0)
     then import_items clock (S n) items (S n)
            (db_add_or_update_word (clock n) (strip w0) (strip []) db)
     else import_items clock n items n db) ∧
    (import_items clock n (Entry (JString w0) (Some (JString tr)) :: items) n db
     = if truthy (strip w0)
       then import_items clock (S n) items (S n)
              (db_add_or_update_word (clock n) (strip w0) (strip tr) db)
       else import_items clock n items n db)) as Hstep by done.
  assert (∀ w0 tr,
    (if truthy (strip w0)
     then ((import_items clock (S n) items (S n)
              (db_add_or_update_word (clock n) (strip w0) tr db)).2
           = Some (n + S (length (omap entry_word items))) ∧
           ∀ w, w ∈ (word <$> rows
                       (import_items clock (S n) items (S n)
                          (db_add_or_update_word (clock n) (strip w0) tr db)).1)
                ↔ w ∈ (word <$> rows db) ∨
                  w ∈ strip w0 :: omap entry_word items)
     else True)) as Hgo.
  { intros w0 tr. destruct (truthy (strip w0)) eqn:Ht; [|done].
    assert (strip w0 ≠ []) as Hne by (by destruct (strip w0)).
    destruct (IH (S n) (db_add_or_update_word (clock n) (strip w0) tr db)
                Hall) as [Hc Hw].
    split; [rewrite Hc; f_equal; lia |].
    intros w. rewrite Hw, upsert_words, strip_idempotent, elem_of_cons.
    tauto. }
  destruct it as [[w0|] [[tr0|]|] |]; try done.
  - rewrite (proj2 (Hstep w0 tr0)). cbn [entry_word].
    specialize (Hgo w0 (strip tr0)).
    destruct (truthy (strip w0)); [done | by apply IH].
  - rewrite (proj1 (Hstep w0 [])). cbn [entry_word].
    specialize (Hgo w0 (strip [])).
    destruct (truthy (strip w0)); [done | by apply IH].
  - cbn [entry_word import_items]. by apply IH.
Qed.

(** X16: the import of a JSON list whose items are well typed stores
    every entry whose word is not blank: the count it reports is the
    number of these entries, and afterwards the table holds exactly the
    words it held and the trimmed words of these entries, none of which
    is empty. *)
Theorem import_json_stores_every_entry (clock : nat → pystr)
    (items : list json_item) (db : Store) :
  Forall (λ it, well_typed it = true) items →
  let res := import_json clock (JList items) db in
  res.2 = Some (length (omap entry_word items)) ∧
  (∀ w, w ∈ (word <$> rows res.1) ↔
        w ∈ (word <$> rows db) ∨ w ∈ omap entry_word items) ∧
  ([] ∉ omap entry_word items).
Proof.
  intros Hall res. destruct (import_items_ok clock items 0 db Hall) as [Hc Hw].
  split; [done |]. split; [done |].
  intros (it & _ & Hit)%list_elem_of_omap.
  destruct it as [[w0|] ?|]; try done. simpl in Hit.
  by destruct (strip w0).
Qed.

Lemma import_json_stores_every_entry_witness :
  Forall (λ it, well_typed it = true)
    [Entry (JString (py " dog ")) (Some (JString (py "perro"))); NoEntry;
     Entry (JString (py "  ")) None;
     Entry (JString (py "cat")) (Some (JString (py " felino ")))] ∧
  (λ r, (word r, translations r)) <$>
    rows (import_json (λ _, ts1)
            (JList [Entry (JString (py " dog ")) (Some (JString (py "perro")));
                    NoEntry; Entry (JString (py "  ")) None;
                    Entry (JString (py "cat"))
                      (Some (JString (py " felino ")))]) cat_store).1
  = [(py "cat", py "gato | felino"); (py "dog", py "perro")] ∧
  (import_json (λ _, ts1)
     (JList [Entry (JString (py " dog ")) (Some (JString (py "perro")));
             NoEntry; Entry (JString (py "  ")) None;
             Entry (JString (py "cat")) (Some (JString (py " felino ")))])
     cat_store).2 = Some 2.
Proof.
  assert (Forall (λ it, well_typed it = true)
            [Entry (JString (py " dog ")) (Some (JString (py "perro")));
             NoEntry; Entry (JString (py "  ")) None;
             Entry (JString (py "cat")) (Some (JString (py " felino ")))])
    as Hall by (repeat apply Forall_cons_2; try apply Forall_nil_2;
                reflexivity).
  split; [exact Hall |]. split; [by vm_compute |].
  destruct (import_json_stores_every_entry (λ _, ts1) _ cat_store Hall)
    as (-> & _). by vm_compute.
Defined.

(** X17: the import is not atomic.  An item whose word or translation
    is no string ends the import with an error and no count, and the
    entries before that item stay in the store as they were imported;
    the items after it are not looked at. *)
Theorem import_json_stops_at_bad_item (clock : nat → pystr)
    (items1 items2 : list json_item) (bad : json_item) (db : Store) :
  well_typed bad = false →
  import_json clock (JList (items1 ++ bad :: items2)) db
  = ((import_json clock (JList items1) db).1, None).
Proof.
  intros Hbad. unfold import_json. rewrite import_items_app.
  destruct (import_items clock 0 items1 0 db) as [db1 [c|]]; [|done].
  by apply import_items_bad.
Qed.

Lemma import_json_stops_at_bad_item_witness :
  well_typed (Entry JOther None) = false ∧
  import_json (λ _, ts1)
    (JList ([Entry (JString (py "dog")) None] ++
            Entry JOther None ::
            [Entry (JString (py "eel")) (Some (JString (py "anguila")))]))
    cat_store
  = (db_add_or_update_word ts1 (py "dog") [] cat_store, None).
Proof.
  assert (well_typed (Entry JOther None) = false) as Hbad by reflexivity.
  split; [exact Hbad |].
  rewrite (import_json_stops_at_bad_item (λ _, ts1)
             [Entry (JString (py "dog")) None]
             [Entry (JString (py "eel")) (Some (JString (py "anguila")))]
             (Entry JOther None) cat_store Hbad).
  reflexivity.
Defined.

(** ** Import of a text *)

Lemma upsert_no_translation ts w db :
  db_add_or_update_word ts w [] db =
  if decide (w = [] ∨ strip w ∈ (word <$> rows db)) then db
  else {| rows := rows db ++
                  [ {| id := next_rowid db; word := strip w;
                       translations := []; added_at := ts;
                       anki_created := 0 |} ];
          seq := next_rowid db |}.
Proof.
  destruct (decide (w = [])) as [-> | Hw]; [by rewrite decide_True by auto |].
  destruct (fetchone_by_word_cases (strip w) db)
    as [(row & Hrow & Hin & Hword) | [_ Hnew]].
  - rewrite (upsert_update _ _ _ _ row) by done. simpl.
    rewrite decide_True; [done |]. right. rewrite <-Hword.
    by apply list_elem_of_fmap_2.
  - rewrite upsert_insert by done. rewrite decide_False; [done |].
    by intros [? | ?].
Qed.

Lemma add_words_prefix clock words : ∀ k db,
  rows db `prefix_of` rows (add_words clock k words db).
Proof.
  induction words as [|w words IH]; intros k db; [done |]. simpl.
  etrans; [|apply IH]. rewrite upsert_no_translation.
  case_decide; [done |]. simpl. by eexists.
Qed.

Lemma add_words_words clock words : ∀ k db w',
  w' ∈ (word <$> rows (add_words clock k words db)) ↔
  w' ∈ (word <$> rows db) ∨ ∃ w, w ∈ words ∧ w ≠ [] ∧ w' = strip w.
Proof.
  induction words as [|w words IH]; intros k db w'; simpl.
  - split; [auto |]. intros [? | (w & Hw & _)]; [done | by inv Hw].
  - rewrite IH, upsert_words. split.
    + intros [[? | [? ?]] | (w0 & ? & ? & ?)]; [auto | |].
      * right. exists w. split; [left | done].
      * right. exists w0. split; [by right | done].
    + intros [? | (w0 & [-> | ?]%elem_of_cons & ? & ?)]; [auto | auto |].
      right. by exists w0.
Qed.

Lemma add_words_new_rows clock words : ∀ k db r,
  r ∈ rows (add_words clock k words db) →
  r ∈ rows db ∨
  ∃ w, w ∈ words ∧ w ≠ [] ∧ word r = strip w ∧
       translations r = [] ∧ anki_created r = 0%Z.
Proof.
  induction words as [|w words IH]; intros k db r; simpl; [auto |].
  intros [Hr | (w0 & ? & ?)]%IH.
  - rewrite upsert_no_translation in Hr. case_decide as Hc; [auto |].
    simpl in Hr. apply elem_of_app in Hr as [? | ->%list_elem_of_singleton];
      [auto |].
    right. exists w. split; [left |]. split; [tauto | done].
  - right. exists w0. split; [by right | done].
Qed.

Lemma add_words_noop clock words : ∀ k db,
  (∀ w, w ∈ words → w = [] ∨ strip w ∈ (word <$> rows db)) →
  add_words clock k words db = db.
Proof.
  induction words as [|w words IH]; intros k db Hall; [done |]. simpl.
  rewrite upsert_no_translation, decide_True by (apply Hall; left).
  apply IH. intros w0 Hw0. apply Hall. by right.
Qed.

Lemma token_plain isalnum lower text min_len t :
  basic_latin isalnum lower →
  t ∈ tokenize_text_to_unique_words isalnum lower text min_len →
  (min_len ≤ Z.of_nat (length t))%Z ∧ strip t = t.
Proof.
  intros Hbl (r & Hr & Ht & Hlen)%elem_of_tokenize. split; [done |].
  apply re_findall_alpha_elem in Hr as [_ Hr].
  rewrite (normalize_word_run _ _ Hbl) in Ht by done. subst t.
  apply strip_by_clean, Forall_map. eapply Forall_impl; [exact Hr |].
  intros c Hc. simpl.
  destruct (ascii_isalpha_facts c Hc) as (_ & _ & Hlow).
  apply (ascii_isalpha_facts (ascii_lower c)).
  unfold ascii_isalpha. rewrite Hlow. apply orb_true_r.
Qed.

(** X18: the import of a text only appends.  The rows of before stay
    as they are, translations and export flags included; afterwards the
    table holds the words it held and the tokens of the text of length
    two or more, every new row carries one of these tokens, no
    translation and flag 0, and the number reported is the number of
    tokens, whether they were new or not. *)
Theorem import_text_only_appends isalnum lower (clock : nat → pystr)
    (txt : pystr) (db : Store) :
  basic_latin isalnum lower →
  let tokens := tokenize_text_to_unique_words isalnum lower txt 2 in
  let res := import_text isalnum lower clock txt db in
  res.2 = length tokens ∧
  rows db `prefix_of` rows res.1 ∧
  (∀ w, w ∈ (word <$> rows res.1) ↔ w ∈ (word <$> rows db) ∨ w ∈ tokens) ∧
  (∀ r, r ∈ rows res.1 →
        r ∈ rows db ∨
        (word r ∈ tokens ∧ translations r = [] ∧ anki_created r = 0%Z)).
Proof.
  intros Hbl tokens res.
  assert (∀ w, w ∈ tokens → w ≠ [] ∧ strip w = w) as Htok.
  { intros w [Hlen Hs]%(token_plain _ _ _ _ _ Hbl). split; [|done].
    intros ->. simpl in Hlen. lia. }
  split; [done |]. split; [apply add_words_prefix |]. split.
  - intros w. unfold res, import_text. cbn [fst]. rewrite add_words_words.
    fold tokens. split.
    + intros [? | (w0 & Hw0 & _ & ->)]; [auto |]. right.
      by rewrite (proj2 (Htok w0 Hw0)).
    + intros [? | Hw]; [auto |]. right. exists w.
      destruct (Htok w Hw) as [? ->]. done.
  - intros r [? | (w & Hw & _ & Hword & ? & ?)]%add_words_new_rows; [auto |].
    right. fold tokens in Hw. rewrite Hword, (proj2 (Htok w Hw)). done.
Qed.

Lemma import_text_only_appends_witness :
  basic_latin ucd_isalnum ucd_lower ∧
  tokenize_text_to_unique_words ucd_isalnum ucd_lower
    (py "The cat. A DOG, the dog!") 2
  = [py "cat"; py "dog"; py "the"] ∧
  (import_text ucd_isalnum ucd_lower (λ _, ts1)
     (py "The cat. A DOG, the dog!") cat_store).2 = 3%nat ∧
  rows (import_text ucd_isalnum ucd_lower (λ _, ts1)
          (py "The cat. A DOG, the dog!") cat_store).1
  = rows cat_store ++
    [ {| id := 2; word := py "dog"; translations := []; added_at := ts1;
         anki_created := 0 |};
      {| id := 3; word := py "the"; translations := []; added_at := ts1;
         anki_created := 0 |} ] ∧
  rows cat_store
  `prefix_of` rows (import_text ucd_isalnum ucd_lower (λ _, ts1)
                      (py "The cat. A DOG, the dog!") cat_store).1.
Proof.
  split; [apply ucd_basic_latin |]. split; [by vm_compute |].
  split; [by vm_compute |]. split; [by vm_compute |].
  apply (import_text_only_appends ucd_isalnum ucd_lower (λ _, ts1)
           (py "The cat. A DOG, the dog!") cat_store ucd_basic_latin).
Defined.

(** X19: importing the same text a second time, at any later time,
    changes nothing: the store is the one after the first import and the
    same number is reported. *)
Theorem import_text_twice_is_once isalnum lower (clock1 clock2 : nat → pystr)
    (txt : pystr) (db : Store) :
  import_text isalnum lower clock2 txt
    (import_text isalnum lower clock1 txt db).1
  = import_text isalnum lower clock1 txt db.
Proof.
  unfold import_text. cbn [fst]. f_equal.
  apply add_words_noop. intros w Hw.
  destruct (decide (w = [])) as [-> | Hne]; [by left |]. right.
  apply add_words_words. right. by exists w.
Qed.

(** ** Saving the edit box *)

Lemma fetchone_by_id_unique db r :
  NoDup (id <$> rows db) → r ∈ rows db → fetchone_by_id (id r) db = Some r.
Proof.
  intros Hnd Hr. destruct (fetchone_by_id (id r) db) as [r0|] eqn:H0.
  - apply fetchone_by_id_Some in H0 as [Hin Hid]. f_equal.
    by apply (NoDup_fmap_eq id (rows db)).
  - unfold fetchone_by_id in H0. apply head_None in H0.
    assert (r ∈ filter (λ r0, id r0 = id r) (rows db)) as Hf
      by by apply list_elem_of_filter.
    rewrite H0 in Hf. by inv Hf.
Qed.

(** X20: saving the edit box merges its text into the first selected
    record and into no other.  On a well-formed store whose texts are
    joins of clean pieces, the record keeps its identifier, word and
    creation time, the translation list it had is a prefix of the new
    one, which holds every trimmed non-empty piece of the text, and the
    records of the other words are left as they are: a translation
    deleted in the box is not removed from the record. *)
Theorem save_edits_merges_into_selected (w : pystr) (others : list pystr)
    (text : pystr) (db : Store) (r : Row) :
  well_formed db → clean_store db → fetchone_by_word w db = Some r →
  let db' := save_edits (w :: others) text db in
  (∃ r', fetchone_by_word w db' = Some r' ∧ frame r' = frame r ∧
         translation_parts (translations r) `prefix_of`
         translation_parts (translations r') ∧
         ∀ np, np ∈ new_translation_parts (strip text) →
               np ∈ translation_parts (translations r')) ∧
  (∀ r0, r0 ∈ rows db → word r0 ≠ w → r0 ∈ rows db') ∧
  length (rows db') = length (rows db).
Proof.
  intros Hwf Hc Hr db'.
  pose proof Hr as [Hin Hword]%fetchone_by_word_Some.
  pose proof (sorted_ids_NoDup _ (wf_order _ Hwf)) as Hids.
  unfold clean_store in Hc. rewrite Forall_forall in Hc.
  destruct (Hc r Hin) as (l & He & Hl & Hnd).
  destruct (merge_parts_clean (new_translation_parts (strip text)) l Hl Hnd
              (new_translation_parts_clean _)) as [Hcl _].
  destruct (merge_parts_added (new_translation_parts (strip text)) l)
    as (added & Hadd & _).
  pose proof (merge_parts_contains (new_translation_parts (strip text)) l)
    as Hcont.
  assert (db' = db_update_translations_for_id (id r) (strip text) db) as ->.
  { unfold db', save_edits. by rewrite Hr. }
  rewrite (merge_translations_unfold (id r) (strip text) db r)
    by by apply fetchone_by_id_unique.
  cbv zeta. rewrite He, (translation_parts_join l) by done.
  set (parts := (merge_parts l (new_translation_parts (strip text))).1) in *.
  case_decide as Hch.
  - split; [|split].
    + rewrite fetchone_by_word_update, Hr by done. simpl.
      rewrite decide_True by done. eexists. split; [done |]. simpl.
      split; [done |]. rewrite translation_parts_join by done.
      split; [rewrite Hadd; by eexists | auto].
    + intros r0 Hr0 Hw0. unfold update_where. simpl.
      apply list_elem_of_fmap. exists r0. split; [|done].
      rewrite decide_False; [done |]. intros Hid.
      apply Hw0. rewrite <-Hword. f_equal.
      by apply (NoDup_fmap_eq id (rows db)).
    + unfold update_where. simpl. by rewrite length_fmap.
  - split; [|done]. exists r. split; [done |]. split; [done |].
    assert (translation_parts (translations r) = parts) as ->.
    { rewrite He, <-Hch. by apply translation_parts_join. }
    split; [rewrite Hadd; by eexists | auto].
Qed.

Lemma save_edits_merges_into_selected_witness :
  well_formed farm_store ∧ clean_store farm_store ∧
  fetchone_by_word (py "bee") farm_store
  = Some {| id := 2; word := py "bee"; translations := py "abeja";
            added_at := ts0; anki_created := 1 |} ∧
  fetchone_by_word (py "bee")
    (save_edits [py "bee"; py "cow"] (py "  abejorro | abeja |  ") farm_store)
  = Some {| id := 2; word := py "bee"; translations := py "abeja | abejorro";
            added_at := ts0; anki_created := 0 |} ∧
  length (rows (save_edits [py "bee"; py "cow"]
                  (py "  abejorro | abeja |  ") farm_store)) = 8%nat.
Proof.
  assert (well_formed farm_store) as Hwf
    by apply run_ops_well_formed, empty_store_well_formed.
  assert (clean_store farm_store) as Hc.
  { apply run_ops_clean; [|constructor].
    repeat apply Forall_cons_2; try apply Forall_nil_2; try exact I;
      try (by left); right; apply clean_piece_decide; by vm_compute. }
  assert (fetchone_by_word (py "bee") farm_store
          = Some {| id := 2; word := py "bee"; translations := py "abeja";
                    added_at := ts0; anki_created := 1 |}) as Hr
    by by vm_compute.
  split; [exact Hwf |]. split; [exact Hc |]. split; [exact Hr |].
  split; [by vm_compute |].
  destruct (save_edits_merges_into_selected (py "bee") [py "cow"]
              (py "  abejorro | abeja |  ") farm_store _ Hwf Hc Hr)
    as (_ & _ & ->). by vm_compute.
Defined.

(** ** Deleting the selection *)

Lemma filter_ext_in {A} (P Q : A → Prop) `{∀ x, Decision (P x)}
    `{∀ x, Decision (Q x)} (l : list A) :
  (∀ x, x ∈ l → P x ↔ Q x) → filter P l = filter Q l.
Proof.
  induction l as [|x l IH]; intros Hext; [done |].
  rewrite !filter_cons, IH by (intros y Hy; apply Hext; by right).
  assert (P x ↔ Q x) as Hx by (apply Hext; left).
  destruct (decide (P x)), (decide (Q x)); try done; tauto.
Qed.

(** X21: on a well-formed store, a confirmed deletion removes exactly
    the records whose word is selected, whatever else the selection
    names, and leaves the other records and the rowid counter as they
    are; a deletion that is not confirmed changes nothing. *)
Theorem delete_selected_removes_selected_words (selection : list pystr)
    (db : Store) :
  well_formed db →
  rows (delete_selected selection true db)
  = filter (λ r, word r ∉ selection) (rows db) ∧
  seq (delete_selected selection true db) = seq db ∧
  well_formed (delete_selected selection true db) ∧
  delete_selected selection false db = db.
Proof.
  intros Hwf.
  assert (delete_selected selection true db =
          db_delete_words
            (id <$> filter (λ r, word r ∈ selection) (rows db)) db) as Heq.
  { unfold delete_selected. destruct selection as [|s sel].
    - replace (filter (λ r, word r ∈ []) (rows db)) with (@nil Row); [done |].
      symmetry. induction (rows db) as [|r l IH]; [done |].
      rewrite filter_cons_False; [done | apply not_elem_of_nil].
    - by destruct (id <$> filter _ (rows db)). }
  pose proof (sorted_ids_NoDup _ (wf_order _ Hwf)) as Hids.
  split; [|split; [|split]].
  - rewrite Heq, db_delete_words_rows. apply filter_ext_in.
    intros r Hr. split.
    + intros Hnot Hsel. apply Hnot, list_elem_of_fmap. exists r.
      split; [done |]. by apply list_elem_of_filter.
    + intros Hnot (r0 & Hid & [Hsel Hr0]%list_elem_of_filter)%list_elem_of_fmap.
      apply Hnot. by rewrite (NoDup_fmap_eq id (rows db) r r0).
  - by rewrite Heq, db_delete_words_seq.
  - rewrite Heq. apply (run_op_well_formed db (Delete _) Hwf).
  - by destruct selection.
Qed.

Lemma delete_selected_removes_selected_words_witness :
  well_formed farm_store ∧
  word <$> rows (delete_selected [py "cow"; py "yak"; py "ant"] true farm_store)
  = [py "bee"; py "dog"; py "eel"; py "fox"; py "gnu"; py "hen"] ∧
  rows (delete_selected [py "cow"; py "yak"; py "ant"] true farm_store)
  = filter (λ r, word r ∉ [py "cow"; py "yak"; py "ant"]) (rows farm_store).
Proof.
  assert (well_formed farm_store) as Hwf
    by apply run_ops_well_formed, empty_store_well_formed.
  split; [exact Hwf |]. split; [by vm_compute |].
  apply (delete_selected_removes_selected_words _ farm_store Hwf).
Defined.

(** ** Exporting in batches *)

Lemma mark_selected_seq (sel : list (pystr * pystr)) : ∀ db,
  seq (foldl (λ d row, db_set_anki_created_for_word row.1 d) db sel) = seq db.
Proof.
  induction sel as [|row sel IH]; intros db; [done |]. simpl. by rewrite IH.
Qed.

Lemma export_anki_seq limit path db :
  seq (export_anki limit path db).1 = seq db.
Proof.
  unfold export_anki. destruct (select_for_export limit db) as [|row sel];
    [done |].
  destruct (truthy path); [|done]. cbn [fst]. by rewrite mark_selected_seq.
Qed.

(** X22: on a store with unique words, exporting [a] cards and then
    [b] cards writes, one file after the other, the cards that one
    export of [a + b] cards writes, in the same order, and leaves the
    same store. *)
Theorem export_in_batches (db : Store) (a b : Z) (path : pystr) :
  NoDup (word <$> rows db) → (0 ≤ a)%Z → (0 ≤ b)%Z → path ≠ [] →
  let db1 := (export_anki a path db).1 in
  select_for_export a db ++ select_for_export b db1
  = select_for_export (a + b) db ∧
  (export_anki b path db1).1 = (export_anki (a + b) path db).1.
Proof.
  intros Hnd Ha Hb Hp db1.
  assert (select_for_export a db ++ select_for_export b db1
          = select_for_export (a + b) db) as Hsel.
  { unfold select_for_export. rewrite !select_rows_take by lia.
    unfold db1. rewrite unexported_after_export by done.
    rewrite <-fmap_app, take_take_drop. do 2 f_equal. lia. }
  split; [done |]. apply store_eq.
  - rewrite !export_anki_rows by done. fold db1. rewrite <-Hsel.
    unfold db1. rewrite export_anki_rows by done.
    rewrite <-list_fmap_compose. apply list_fmap_ext. intros i r _. simpl.
    rewrite fmap_app.
    destruct (decide (word r ∈ (select_for_export a db).*1)) as [H1 | H1];
      simpl;
      destruct (decide (word r ∈ (select_for_export b
                                    (export_anki a path db).1).*1))
        as [H2 | H2];
      case_decide as H3; try done;
      rewrite elem_of_app in H3; tauto.
  - unfold db1. by rewrite !export_anki_seq.
Qed.

Lemma export_in_batches_witness :
  NoDup (word <$> rows farm_store) ∧ (0 ≤ 2)%Z ∧ (0 ≤ 2)%Z ∧
  py "cards.csv" ≠ [] ∧
  (select_for_export 2 farm_store).*1 = [py "dog"; py "eel"] ∧
  (select_for_export 2 (export_anki 2 (py "cards.csv") farm_store).1).*1
  = [py "fox"; py "gnu"] ∧
  (select_for_export 4 farm_store).*1
  = [py "dog"; py "eel"; py "fox"; py "gnu"] ∧
  (export_anki 2 (py "cards.csv")
     (export_anki 2 (py "cards.csv") farm_store).1).1
  = (export_anki (2 + 2) (py "cards.csv") farm_store).1.
Proof.
  assert (well_formed farm_store) as [Hnd _ _ _]
    by apply run_ops_well_formed, empty_store_well_formed.
  assert ((0 ≤ 2)%Z) as H2 by lia.
  assert (py "cards.csv" ≠ []) as Hp by done.
  split; [exact Hnd |]. split; [exact H2 |]. split; [exact H2 |].
  split; [exact Hp |]. split; [by vm_compute |]. split; [by vm_compute |].
  split; [by vm_compute |].
  apply (export_in_batches farm_store 2 2 (py "cards.csv") Hnd H2 H2 Hp).
Defined.

(** ** The tokens of a text in parts *)

Lemma findall_go_app_sep s1 : ∀ cur c s2,
  ascii_isalpha c = false →
  findall_go cur (s1 ++ c :: s2) = findall_go cur s1 ++ findall_go [] s2.
Proof.
  induction s1 as [|x s1 IH]; intros cur c s2 Hc.
  - cbn [app findall_go]. by rewrite Hc.
  - cbn [app findall_go]. destruct (ascii_isalpha x).
    + by apply IH.
    + by rewrite IH, app_assoc.
Qed.

Lemma tokenize_NoDup isalnum lower text min_len :
  NoDup (tokenize_text_to_unique_words isalnum lower text min_len).
Proof.
  unfold tokenize_text_to_unique_words. rewrite sorted_Permutation.
  apply NoDup_elements.
Qed.

Lemma lexico_sorted_unique (l1 l2 : list pystr) :
  StronglySorted lexico l1 → StronglySorted lexico l2 →
  NoDup l1 → NoDup l2 → (∀ w, w ∈ l1 ↔ w ∈ l2) → l1 = l2.
Proof.
  intros H1 H2 Hn1 Hn2 Hel.
  apply (StronglySorted_unique_strong lexico); [|done |done |].
  - intros x1 x2 _ _ Ha Hb. exfalso.
    apply (irreflexivity lexico x1). by etrans.
  - by apply NoDup_Permutation.
Qed.

Lemma tokenize_ext isalnum lower a n b m :
  (∀ w, w ∈ tokenize_text_to_unique_words isalnum lower a n ↔
        w ∈ tokenize_text_to_unique_words isalnum lower b m) →
  tokenize_text_to_unique_words isalnum lower a n
  = tokenize_text_to_unique_words isalnum lower b m.
Proof.
  intros Hel. apply lexico_sorted_unique;
    auto using tokenize_strictly_sorted, tokenize_NoDup.
Qed.

Lemma StronglySorted_filter {A} (R : relation A) (P : A → Prop)
    `{∀ x, Decision (P x)} (l : list A) :
  StronglySorted R l → StronglySorted R (filter P l).
Proof.
  induction 1 as [|x l Hl IH Hx]; [constructor |].
  rewrite filter_cons. case_decide; [|done]. constructor; [done |].
  rewrite Forall_forall in Hx |- *.
  intros y [_ Hy]%list_elem_of_filter. by apply Hx.
Qed.

(** X23: the tokens of two texts joined by a character that is no
    ASCII letter are the tokens of the one and of the other; so the
    order of the two texts does not count, and a text repeated gives the
    tokens of the text. *)
Theorem tokenize_of_joined_texts isalnum lower (t1 t2 : pystr) (c : N)
    (min_len : Z) :
  ascii_isalpha c = false →
  (∀ w, w ∈ tokenize_text_to_unique_words isalnum lower (t1 ++ c :: t2) min_len
        ↔ w ∈ tokenize_text_to_unique_words isalnum lower t1 min_len ∨
          w ∈ tokenize_text_to_unique_words isalnum lower t2 min_len) ∧
  tokenize_text_to_unique_words isalnum lower (t1 ++ c :: t2) min_len
  = tokenize_text_to_unique_words isalnum lower (t2 ++ c :: t1) min_len ∧
  tokenize_text_to_unique_words isalnum lower (t1 ++ c :: t1) min_len
  = tokenize_text_to_unique_words isalnum lower t1 min_len.
Proof.
  intros Hc.
  assert (∀ a b w,
    w ∈ tokenize_text_to_unique_words isalnum lower (a ++ c :: b) min_len
    ↔ w ∈ tokenize_text_to_unique_words isalnum lower a min_len ∨
      w ∈ tokenize_text_to_unique_words isalnum lower b min_len) as Hel.
  { intros a b w. rewrite !elem_of_tokenize. unfold re_findall_alpha.
    rewrite findall_go_app_sep by done. split.
    - intros (r & [? | ?]%elem_of_app & ? & ?); [left | right]; by exists r.
    - intros [(r & ? & ? & ?) | (r & ? & ? & ?)]; exists r;
        (split; [apply elem_of_app; auto | done]). }
  split; [apply Hel |]. split.
  - apply tokenize_ext. intros w. rewrite !Hel. tauto.
  - apply tokenize_ext. intros w. rewrite Hel. tauto.
Qed.

Lemma tokenize_of_joined_texts_witness :
  ascii_isalpha 10 = false ∧
  tokenize_text_to_unique_words ucd_isalnum ucd_lower (py "The cat") 2
  = [py "cat"; py "the"] ∧
  tokenize_text_to_unique_words ucd_isalnum ucd_lower (py "a Cat-hat") 2
  = [py "cat"; py "hat"] ∧
  tokenize_text_to_unique_words ucd_isalnum ucd_lower
    (py "The cat" ++ 10%N :: py "a Cat-hat") 2
  = [py "cat"; py "hat"; py "the"] ∧
  tokenize_text_to_unique_words ucd_isalnum ucd_lower
    (py "The cat" ++ 10%N :: py "a Cat-hat") 2
  = tokenize_text_to_unique_words ucd_isalnum ucd_lower
      (py "a Cat-hat" ++ 10%N :: py "The cat") 2.
Proof.
  assert (ascii_isalpha 10 = false) as Hc by reflexivity.
  split; [exact Hc |]. split; [by vm_compute |]. split; [by vm_compute |].
  split; [by vm_compute |].
  apply (tokenize_of_joined_texts ucd_isalnum ucd_lower (py "The cat")
           (py "a Cat-hat") 10 2 Hc).
Defined.

(** X24: raising the minimal length only drops tokens: the tokens for
    a larger bound are those for a smaller bound that are long enough,
    in the same order. *)
Theorem tokenize_raising_min_len isalnum lower (text : pystr) (n m : Z) :
  (n ≤ m)%Z →
  tokenize_text_to_unique_words isalnum lower text m
  = filter (λ t, (m ≤ Z.of_nat (length t))%Z)
      (tokenize_text_to_unique_words isalnum lower text n).
Proof.
  intros Hnm. apply lexico_sorted_unique.
  - apply tokenize_strictly_sorted.
  - apply StronglySorted_filter, tokenize_strictly_sorted.
  - apply tokenize_NoDup.
  - apply NoDup_filter, tokenize_NoDup.
  - intros w. rewrite list_elem_of_filter, !elem_of_tokenize. split.
    + intros (r & ? & ? & ?). split; [done |]. exists r.
      split; [done |]. split; [done | lia].
    + intros [? (r & ? & ? & ?)]. by exists r.
Qed.

Lemma tokenize_raising_min_len_witness :
  (1 ≤ 3)%Z ∧
  tokenize_text_to_unique_words ucd_isalnum ucd_lower
    (py "The cat; the CAT's hat, a 2nd Hat.") 1
  = [py "a"; py "cat"; py "hat"; py "nd"; py "s"; py "the"] ∧
  tokenize_text_to_unique_words ucd_isalnum ucd_lower
    (py "The cat; the CAT's hat, a 2nd Hat.") 3
  = filter (λ t, (3 ≤ Z.of_nat (length t))%Z)
      (tokenize_text_to_unique_words ucd_isalnum ucd_lower
         (py "The cat; the CAT's hat, a 2nd Hat.") 1).
Proof.
  assert ((1 ≤ 3)%Z) as Hnm by lia.
  split; [exact Hnm |]. split; [by vm_compute |].
  apply (tokenize_raising_min_len ucd_isalnum ucd_lower
           (py "The cat; the CAT's hat, a 2nd Hat.") 1 3 Hnm).
Defined.

(** ** Quotes and blanks around a word *)

Lemma dropwhile_map {A} (p : A → bool) (f : A → A) (l : list A) :
  (∀ x, p (f x) = p x) → dropwhile p (map f l) = map f (dropwhile p l).
Proof.
  intros Hf. induction l as [|x l IH]; [done |]. simpl. rewrite Hf.
  by destruct (p x).
Qed.

Lemma reverse_map {A} (f : A → A) (l : list A) :
  reverse (map f l) = map f (reverse l).
Proof.
  induction l as [|x l IH]; [done |]. simpl.
  by rewrite !reverse_cons, IH, map_app.
Qed.

Lemma strip_by_map p (f : N → N) s :
  (∀ c, p (f c) = p c) → strip_by p (map f s) = map f (strip_by p s).
Proof.
  intros Hf. unfold strip_by, rstrip_by, lstrip_by.
  by rewrite dropwhile_map, reverse_map, dropwhile_map, reverse_map.
Qed.

Lemma normalize_word_map isalnum lower (f : N → N) s :
  (∀ c, isspace (f c) = isspace c) →
  (∀ c, (λ c, if (c =? 8221)%N then 34%N else c)
          ((λ c, if (c =? 8220)%N then 34%N else c)
             ((λ c, if (c =? 8217)%N then 39%N else c) (f c)))
        = (λ c, if (c =? 8221)%N then 34%N else c)
            ((λ c, if (c =? 8220)%N then 34%N else c)
               ((λ c, if (c =? 8217)%N then 39%N else c) c))) →
  normalize_word isalnum lower (map f s) = normalize_word isalnum lower s.
Proof.
  intros Hsp Hf. unfold normalize_word, strip. cbv zeta.
  rewrite strip_by_map by done. unfold replace. rewrite !map_map.
  do 2 f_equal. apply map_ext. intros c. apply Hf.
Qed.

(** X25: the normalizer does not tell a typographic quote from the
    straight one, nor a word from the word with whitespace around it:
    replacing U+2019 by the apostrophe, U+201C or U+201D by the
    quotation mark, or trimming the input, leaves the result as it is,
    whatever the Unicode tables. *)
Theorem normalize_word_quote_style isalnum lower (s : pystr) :
  normalize_word isalnum lower (replace 8217 39 s)
  = normalize_word isalnum lower s ∧
  normalize_word isalnum lower (replace 8220 34 s)
  = normalize_word isalnum lower s ∧
  normalize_word isalnum lower (replace 8221 34 s)
  = normalize_word isalnum lower s ∧
  normalize_word isalnum lower (strip s) = normalize_word isalnum lower s.
Proof.
  assert (∀ old new c, isspace old = false → isspace new = false →
            isspace (if (c =? old)%N then new else c) = isspace c) as Hsp.
  { intros old new c Ho Hn. destruct (N.eqb_spec c old); congruence. }
  split; [|split; [|split]].
  - apply normalize_word_map; intros c; [by apply Hsp |]. cbv beta.
    destruct (N.eqb_spec c 8217) as [-> | Hn]; [done |].
    apply N.eqb_neq in Hn. by rewrite ?Hn.
  - apply normalize_word_map; intros c; [by apply Hsp |]. cbv beta.
    destruct (N.eqb_spec c 8220) as [-> | Hn]; [done |].
    apply N.eqb_neq in Hn. by rewrite ?Hn.
  - apply normalize_word_map; intros c; [by apply Hsp |]. cbv beta.
    destruct (N.eqb_spec c 8221) as [-> | Hn]; [done |].
    apply N.eqb_neq in Hn. by rewrite ?Hn.
  - unfold normalize_word. cbv zeta. by rewrite strip_idempotent.
Qed.
